(** * daq_slices_sweep: event processing and parameter sweeping

    A shallow embedding of [daq_slices_sweep.py]: the per-event pipeline
    [process_event], the configuration table [update_config_parameter], the
    sweep driver [process_with_params] and the command-line front end
    ([parse_args], [main]), followed by the properties of the
    specification that were checked against them.

    Conventions.
    - Python exceptions are values of type [exn]; a computation that can
      raise returns a [result].  Stateful code runs in the monad [M S],
      which keeps the state reached when an exception is raised (Python
      does not roll back mutations).
    - Python floats are IEEE binary64 numbers: Rocq's primitive [float].
      Integers of record arrays ([zle_id], [sample]) are unbounded: their
      numpy dtype is not part of the program.
    - The libraries dselec, dsio and dsutils are not part of the program;
      their functions are the fields of the classes [DsElec], [DsIO] and
      [Units], and may raise.  Their random-number state is not modelled:
      a function of dselec is a function of the configuration and of its
      arguments, which describes one run of the program and does not
      relate two runs that call dselec differently.
    - [mkdir] raises as the file system decides: for a regular file in
      the way and for whatever else the operating system refuses.
      Failures of the operating system in [write], [close] and [unlink]
      are not modelled.
    - Messages of level debug are not recorded in the log; the other
      messages are recorded with their arguments instead of their text. *)

From Stdlib Require PrimFloat FloatOps SpecFloat.
From Stdlib Require Import ZArith Ascii String.
From stdpp Require Import base option list gmap strings sorting pretty.

Abbreviation float := PrimFloat.float.

(** ** Exceptions and results *)

Inductive exn_class : Type :=
  | ValueError | TypeError | OverflowError | KeyError | AttributeError
  | RuntimeError | OSError | FileExistsError | NotADirectoryError.

Record exn : Type := Exn { exn_cls : exn_class; exn_msg : string }.

Inductive result (A : Type) : Type :=
  | Ok (a : A)
  | Raise (e : exn).
Arguments Ok {A} a.
Arguments Raise {A} e.

(** [isinstance(e, ValueError)] *)
Definition is_ValueError (e : exn) : bool :=
  match exn_cls e with ValueError => true | _ => false end.

(** ** The state-and-exception monad *)

Definition M (S A : Type) : Type := S → result A * S.

Definition mret {S A} (a : A) : M S A := λ s, (Ok a, s).

Definition mbind {S A B} (m : M S A) (k : A → M S B) : M S B :=
  λ s, match m s with
       | (Ok a, s') => k a s'
       | (Raise e, s') => (Raise e, s')
       end.

Definition mraise {S A} (e : exn) : M S A := λ s, (Raise e, s).

(** [try: m except Exception as e: h e] *)
Definition mtry {S A} (m : M S A) (h : exn → M S A) : M S A :=
  λ s, match m s with
       | (Ok a, s') => (Ok a, s')
       | (Raise e, s') => h e s'
       end.

Definition mget {S} : M S S := λ s, (Ok s, s).
Definition mmodify {S} (f : S → S) : M S unit := λ s, (Ok tt, f s).

(** a call of a library function *)
Definition mlift {S A} (r : result A) : M S A := λ s, (r, s).

Notation "'let*' x := m 'in' k" := (mbind m (λ x, k))
  (at level 10, x pattern, m at level 100, k at level 200,
   format "'[v' 'let*'  x  :=  m  'in'  '/' k ']'").
Notation "m >>> k" := (mbind m (λ _, k))
  (at level 100, right associativity).

(** [for x in xs: body x] *)
Fixpoint mfor {S X} (xs : list X) (body : X → M S unit) : M S unit :=
  match xs with
  | [] => mret tt
  | x :: rest => body x >>> mfor rest body
  end.

(** ** Python strings *)

Local Open Scope string_scope.
Local Open Scope list_scope.
Local Open Scope nat_scope.

(** [needle in hay] *)
Fixpoint contains (needle hay : string) : bool :=
  String.prefix needle hay ||
  match hay with
  | EmptyString => false
  | String _ rest => contains needle rest
  end.

(** [s.split(sep)] for a separator of one character *)
Fixpoint split (sep : ascii) (s : string) : list string :=
  match s with
  | EmptyString => [""]
  | String c rest =>
      if Ascii.eqb c sep then "" :: split sep rest
      else match split sep rest with
           | first :: others => String c first :: others
           | [] => [String c ""]
           end
  end.

(** [c.isspace()] on the ASCII range *)
Definition py_isspace (c : ascii) : bool :=
  let n := nat_of_ascii c in
  ((9 <=? n) && (n <=? 13) || (28 <=? n) && (n <=? 32))%nat.

Fixpoint lstrip (s : string) : string :=
  match s with
  | String c rest => if py_isspace c then lstrip rest else s
  | EmptyString => EmptyString
  end.

(** [s.strip()] *)
Definition strip (s : string) : string :=
  String.rev (lstrip (String.rev (lstrip s))).

(** [s.rfind(c)], counting from index [i] *)
Fixpoint rfind (c : ascii) (s : string) (i : nat) : option nat :=
  match s with
  | EmptyString => None
  | String a rest =>
      match rfind c rest (S i) with
      | Some j => Some j
      | None => if Ascii.eqb a c then Some i else None
      end
  end.

(** [sep.join(parts)] *)
Fixpoint join (sep : string) (parts : list string) : string :=
  match parts with
  | [] => ""
  | [p] => p
  | p :: rest => p +:+ sep +:+ join sep rest
  end.

(** ** pathlib (PurePosixPath, as in CPython 3.8 to 3.13) *)

Record Path : Type := MkPath { path_root : string; path_parts : list string }.

Definition path_component (c : string) : bool :=
  negb (String.eqb c "") && negb (String.eqb c ".").

(** [Path(s)]: exactly two leading slashes are kept as the root, repeated
    slashes and components [.] are dropped. *)
Definition Path_of_string (s : string) : Path :=
  let root :=
    if String.prefix "//" s && negb (String.prefix "///" s) then "//"
    else if String.prefix "/" s then "/" else "" in
  {| path_root := root;
     path_parts := List.filter path_component (split "/" s) |}.

(** [str(p)] *)
Definition Path_str (p : Path) : string :=
  match path_root p, path_parts p with
  | EmptyString, [] => "."
  | r, ps => r +:+ join "/" ps
  end.

(** [p.parent] *)
Definition Path_parent (p : Path) : Path :=
  {| path_root := path_root p; path_parts := removelast (path_parts p) |}.

(** [p.name] *)
Definition Path_name (p : Path) : string := List.last (path_parts p) "".

(** the index of the dot that starts the suffix of a file name, if any *)
Definition suffix_index (name : string) : option nat :=
  match rfind "." name 0 with
  | Some i =>
      if ((0 <? i) && (i <? String.length name - 1))%nat then Some i else None
  | None => None
  end.

(** [p.suffix] *)
Definition Path_suffix (p : Path) : string :=
  let name := Path_name p in
  match suffix_index name with
  | Some i => String.substring i (String.length name - i) name
  | None => ""
  end.

(** [p.stem] *)
Definition Path_stem (p : Path) : string :=
  let name := Path_name p in
  match suffix_index name with
  | Some i => String.substring 0 i name
  | None => name
  end.

(** [p / s] *)
Definition Path_join (p : Path) (s : string) : Path :=
  let q := Path_of_string s in
  if String.eqb (path_root q) "" then
    {| path_root := path_root p; path_parts := path_parts p ++ path_parts q |}
  else q.

(** the ancestors created by [mkdir(parents=True)], the path itself last *)
Definition Path_with_parents (p : Path) : list Path :=
  List.map (λ n, {| path_root := path_root p; path_parts := take n (path_parts p) |})
           (seq 1 (length (path_parts p))).


(** ** Python floats and their text *)

Definition float_of_Z (z : Z) : float :=
  FloatOps.SF2Prim (SpecFloat.binary_normalize FloatOps.prec FloatOps.emax z 0 false).

Definition float_is_finite (f : float) : bool :=
  match FloatOps.Prim2SF f with
  | SpecFloat.S754_zero _ | SpecFloat.S754_finite _ _ _ => true
  | _ => false
  end.

(** the magnitude [m * 2^e] cut to an integer, and whether it was one *)
Definition magnitude (m : positive) (e : Z) : Z * bool :=
  if (0 <=? e)%Z then (Z.pos m * 2 ^ e, true)%Z
  else (Z.pos m / 2 ^ (- e), Z.pos m mod 2 ^ (- e) =? 0)%Z.

(** [int(f)]: truncation toward zero; [nan] and the infinities raise *)
Definition float_trunc (f : float) : result Z :=
  match FloatOps.Prim2SF f with
  | SpecFloat.S754_zero _ => Ok 0%Z
  | SpecFloat.S754_finite s m e =>
      let z := fst (magnitude m e) in Ok (if s then (- z)%Z else z)
  | SpecFloat.S754_infinity _ =>
      Raise (Exn OverflowError "cannot convert float infinity to integer")
  | SpecFloat.S754_nan => Raise (Exn ValueError "cannot convert float NaN to integer")
  end.

(** The parts of Python's float parsing and printing that are not written
    out below: literals other than a run of decimal digits, and the shortest
    round-trip digits of a float that is not an integer below [10^16]. *)
Class PyText : Type := {
  float_parse_general : string → result float;
  float_repr_general : float → string;
  int_parse_general : string → result Z
}.

Definition digit_value (c : ascii) : option Z :=
  let n := nat_of_ascii c in
  if ((48 <=? n) && (n <=? 57))%nat then Some (Z.of_nat (n - 48)) else None.

Fixpoint digits_value (s : string) (acc : Z) : option Z :=
  match s with
  | EmptyString => Some acc
  | String c rest =>
      match digit_value c with
      | Some d => digits_value rest (10 * acc + d)%Z
      | None => None
      end
  end.

(** the value of a non-empty run of decimal digits *)
Definition decimal_literal (s : string) : option Z :=
  match s with
  | EmptyString => None
  | _ => digits_value s 0%Z
  end.

Section text.
Context `{PyText}.

(** [float(s)] for a string: surrounding white space is ignored; a run of
    digits is rounded to the nearest float. *)
Definition float_of_string (s : string) : result float :=
  match decimal_literal (strip s) with
  | Some z => Ok (float_of_Z z)
  | None => float_parse_general s
  end.

(** [int(s)] for a string *)
Definition int_of_string (s : string) : result Z :=
  match decimal_literal (strip s) with
  | Some z => Ok z
  | None => int_parse_general s
  end.

(** [repr(f)], which is also [str(f)] and [f"{f}"] *)
Definition float_repr (f : float) : string :=
  match FloatOps.Prim2SF f with
  | SpecFloat.S754_nan => "nan"
  | SpecFloat.S754_infinity s => if s then "-inf" else "inf"
  | SpecFloat.S754_zero s => if s then "-0.0" else "0.0"
  | SpecFloat.S754_finite s m e =>
      let '(z, whole) := magnitude m e in
      if whole && (z <? 10 ^ 16)%Z
      then (if s then "-" else "") +:+ pretty z +:+ ".0"
      else float_repr_general f
  end.

(** ** Python values that reach the configuration *)

Inductive pyval : Type :=
  | PFloat (f : float)
  | PInt (z : Z)
  | PStr (s : string)
  | PNone.

(** [float(v)] *)
Definition py_float (v : pyval) : result float :=
  match v with
  | PFloat f => Ok f
  | PInt z =>
      let f := float_of_Z z in
      if float_is_finite f then Ok f
      else Raise (Exn OverflowError "int too large to convert to float")
  | PStr s => float_of_string s
  | PNone => Raise (Exn TypeError "float() argument must be a string or a real number")
  end.

(** [int(v)] *)
Definition py_int (v : pyval) : result Z :=
  match v with
  | PFloat f => float_trunc f
  | PInt z => Ok z
  | PStr s => int_of_string s
  | PNone => Raise (Exn TypeError "int() argument must be a string or a real number")
  end.

(** [str(v)], also the text of [v] in an f-string *)
Definition py_str (v : pyval) : string :=
  match v with
  | PFloat f => float_repr f
  | PInt z => pretty z
  | PStr s => s
  | PNone => "None"
  end.

End text.


(** ** Records of the detector data *)

(** The configuration store [elec_cfg]: [set] is [insert], [get] is lookup. *)
Abbreviation config := (gmap string pyval).

(** The types of dselec that the program only passes around: the number
    type of amplitudes with its in-place division [x /= g], the fields of
    the record arrays that the program never reads, and the waveforms. *)
Class DsTypes : Type := {
  amp : Type;
  gain : Type;
  amp_div : amp → gain → amp;
  pe_data : Type;
  zle_data : Type;
  hit_data : Type;
  waveforms : Type;
  summed_waveforms : Type;
  downsampled : Type;
  file_header : Type
}.

Section records.
Context `{DsTypes}.

Record pe : Type := MkPe { pe_time : float; pe_rest : pe_data }.

Record zle : Type := MkZle { zle_integral : amp; zle_rest : zle_data }.

Record hit : Type := MkHit {
  hit_zle_id : Z;
  hit_sample : Z;
  hit_integral : amp;
  hit_max : amp;
  hit_rest : hit_data
}.

Record zle_gain : Type := MkZleGain { zle_integral_mean : gain }.
Record hit_gain : Type := MkHitGain { hit_integral_mean : gain; hit_max_mean : gain }.

(** An input event: the dict [ev] with its keys [veto_pe] and [pe]. *)
Record event : Type := MkEvent {
  ev_veto_pe : list pe;
  ev_pe : option (list pe)
}.

(** An output event: the dict [out]; a key not yet stored is [None]. *)
Record out_event : Type := MkOut {
  out_pe : option (list pe);
  out_top_wf : option downsampled;
  out_bot_wf : option downsampled;
  out_zles : option (list zle);
  out_hits : option (list hit)
}.

Definition empty_out : out_event := MkOut None None None None None.

Definition set_out_pe (v : list pe) (o : out_event) : out_event :=
  MkOut (Some v) (out_top_wf o) (out_bot_wf o) (out_zles o) (out_hits o).
Definition set_out_wfs (top bot : downsampled) (o : out_event) : out_event :=
  MkOut (out_pe o) (Some top) (Some bot) (out_zles o) (out_hits o).
Definition set_out_zles (v : list zle) (o : out_event) : out_event :=
  MkOut (out_pe o) (out_top_wf o) (out_bot_wf o) (Some v) (out_hits o).
Definition set_out_hits (v : list hit) (o : out_event) : out_event :=
  MkOut (out_pe o) (out_top_wf o) (out_bot_wf o) (out_zles o) (Some v).

(** ** The log *)

Inductive log_entry : Type :=
  | WarnZleTooShort (i : nat)
  | WarnGateError (i : nat) (t_start : float) (e : exn)
  | WarnOutsideError (i : nat) (e : exn)
  | WarnNoValidData (i : nat)
  | InfoProcessing (section param : string) (value : pyval)
  | InfoSaved (path : string) (valid_events : nat)
  | WarnNoValidEvents (section param : string) (value : pyval)
  | ErrorSweepValue (section param : string) (value : pyval) (e : exn)
  | InfoSweeping (section param : string) (values : list pyval).

(** ** dselec *)

Class DsElec : Type := {
  find_waveform_gates : config → list pe → result (list float * list float);
  add_noise_pes : config → list pe → option pyval → result (list pe);
  add_daq_jitter : config → list pe → result (list pe);
  create_veto_waveforms : config → list pe → float → float → result waveforms;
  find_zle_intervals : config → waveforms → float → result (list zle);
  sum_zles : config → list zle → waveforms → option summed_waveforms → float →
             result (option summed_waveforms);
  find_hits : config → waveforms → list zle → float → result (list hit);
  downsample_summed_wfs : config → summed_waveforms → result (downsampled * downsampled);
  get_pes_outside_gates : config → list pe → list float → list float → result (list pe);
  find_effective_zles_hits : config → list pe → result (list zle * list hit);
  get_zle_gain_veto : config → result zle_gain;
  get_hit_gain_veto : config → result hit_gain
}.

End records.

(** ** process_event *)

Section process_event.
Context `{DsTypes} `{!DsElec}.

(** The state of one call: the dict [out] and the log, which outlive the
    call, and the locals [hits], [zles] and [summed_wfs]. *)
Record pstate : Type := MkPstate {
  ps_out : out_event;
  ps_log : list log_entry;
  ps_hits : list (list hit);
  ps_zles : list (list zle);
  ps_summed : option summed_waveforms
}.

Definition with_out (f : out_event → out_event) (s : pstate) : pstate :=
  MkPstate (f (ps_out s)) (ps_log s) (ps_hits s) (ps_zles s) (ps_summed s).
Definition with_log (e : log_entry) (s : pstate) : pstate :=
  MkPstate (ps_out s) (ps_log s ++ [e]) (ps_hits s) (ps_zles s) (ps_summed s).
Definition with_summed (w : option summed_waveforms) (s : pstate) : pstate :=
  MkPstate (ps_out s) (ps_log s) (ps_hits s) (ps_zles s) w.
(** [zles.append(z); hits.append(h)] *)
Definition with_append (z : list zle) (h : list hit) (s : pstate) : pstate :=
  MkPstate (ps_out s) (ps_log s) (ps_hits s ++ [h]) (ps_zles s ++ [z]) (ps_summed s).
(** [hits, zles = [], []; summed_wfs = None] *)
Definition with_fresh_locals (s : pstate) : pstate :=
  MkPstate (ps_out s) (ps_log s) [] [] None.

Definition logp (e : log_entry) : M pstate unit := mmodify (with_log e).

(** [(time >= t_start) & (time <= t_start + gate)] *)
Definition in_gate (t_start gate : float) (p : pe) : bool :=
  PrimFloat.leb t_start (pe_time p) &&
  PrimFloat.leb (pe_time p) (PrimFloat.add t_start gate).

(** [sum(len(_z) for _z in zles)] *)
Definition count_zles (zles : list (list zle)) : Z :=
  Z.of_nat (sum_list (length <$> zles)).

(** [h['zle_id'] += n], on one record *)
Definition shift_zle_id (n : Z) (h : hit) : hit :=
  MkHit (hit_zle_id h + n) (hit_sample h) (hit_integral h) (hit_max h) (hit_rest h).

(** the test of the handler of [sum_zles] *)
Definition zle_too_short (e : exn) : bool :=
  is_ValueError e && contains "ZLE interval too short" (exn_msg e).

(** The inner [try] around [sum_zles]: [true] when control goes on to
    [find_hits], [false] when the handler ends the iteration with
    [continue]; any other exception is raised again. *)
Definition try_sum_zles (cfg : config) (i : nat) (z : list zle) (wfs : waveforms)
    (t_start : float) : M pstate bool :=
  let* st := mget in
  mtry
    (let* s := mlift (sum_zles cfg z wfs (ps_summed st) t_start) in
     mmodify (with_summed s) >>> mret true)
    (λ e, if zle_too_short e
          then logp (WarnZleTooShort i) >>> mret false
          else mraise e).

(** the body of the loop over the gates *)
Definition gate_body (cfg : config) (i : nat) (pe' : list pe)
    (tg : float * float) : M pstate unit :=
  let '(t_start, gate) := tg in
  mtry
    (let pes := List.filter (in_gate t_start gate) pe' in
     let* wfs := mlift (create_veto_waveforms cfg pes gate t_start) in
     let* z := mlift (find_zle_intervals cfg wfs t_start) in
     let* summed := try_sum_zles cfg i z wfs t_start in
     if summed : bool then
       let* h := mlift (find_hits cfg wfs z t_start) in
       let* st := mget in
       mmodify (with_append z (shift_zle_id (count_zles (ps_zles st)) <$> h)) >>>
       let* st := mget in
       match ps_summed st with
       | Some s =>
           let* tb := mlift (downsample_summed_wfs cfg s) in
           mmodify (with_out (set_out_wfs (fst tb) (snd tb)))
       | None => mret tt
       end
     else mret tt)
    (λ e, logp (WarnGateError i t_start e)).

(** the pass over the photoelectrons outside every gate *)
Definition outside_gates (cfg : config) (i : nat) (pe' : list pe)
    (t_starts gates : list float) : M pstate unit :=
  mtry
    (let* pes := mlift (get_pes_outside_gates cfg pe' t_starts gates) in
     let* zh := mlift (find_effective_zles_hits cfg pes) in
     let* st := mget in
     mmodify (with_append (fst zh) (shift_zle_id (count_zles (ps_zles st)) <$> snd zh)))
    (λ e, logp (WarnOutsideError i e)).

(** lines 48 to 91: gate discovery, noise and jitter, the gates, the rest *)
Definition collect (cfg : config) (i : nat) (ev : event) : M pstate unit :=
  mmodify with_fresh_locals >>>
  let* ev_pe := mlift (match ev_pe ev with
                       | Some a => Ok a
                       | None => Raise (Exn KeyError "'pe'")
                       end) in
  let* tg := mlift (find_waveform_gates cfg ev_pe) in
  let* noisy := mlift (add_noise_pes cfg ev_pe (cfg !! "daq.slice")) in
  mmodify (with_out (set_out_pe noisy)) >>>
  let* pe' := mlift (add_daq_jitter cfg noisy) in
  mmodify (with_out (set_out_pe pe')) >>>
  mfor (zip (fst tg) (snd tg)) (gate_body cfg i pe') >>>
  outside_gates cfg i pe' (fst tg) (snd tg).

(** The order of [sort(order=['zle_id', 'sample'])].  numpy compares the
    remaining fields to settle ties; [merge_sort] leaves tied records in
    their order, which no statement below depends on. *)
Definition hit_key_le (a b : hit) : Prop :=
  (hit_zle_id a < hit_zle_id b)%Z ∨
  (hit_zle_id a = hit_zle_id b ∧ (hit_sample a ≤ hit_sample b)%Z).

Global Instance hit_key_le_dec a b : Decision (hit_key_le a b).
Proof. unfold hit_key_le. apply _. Defined.

Definition normalize_zle (g : zle_gain) (z : zle) : zle :=
  MkZle (amp_div (zle_integral z) (zle_integral_mean g)) (zle_rest z).
Definition normalize_hit_integral (g : hit_gain) (h : hit) : hit :=
  MkHit (hit_zle_id h) (hit_sample h) (amp_div (hit_integral h) (hit_integral_mean g))
        (hit_max h) (hit_rest h).
Definition normalize_hit_max (g : hit_gain) (h : hit) : hit :=
  MkHit (hit_zle_id h) (hit_sample h) (hit_integral h)
        (amp_div (hit_max h) (hit_max_mean g)) (hit_rest h).

(** lines 93 to 104 *)
Definition finish (cfg : config) (i : nat) : M pstate bool :=
  let* st := mget in
  if ((0 <? length (ps_hits st)) && (0 <? length (ps_zles st)))%nat then
    let zs := concat (ps_zles st) in
    let hs := concat (ps_hits st) in
    mmodify (with_out (set_out_zles zs)) >>>
    mmodify (with_out (set_out_hits hs)) >>>
    let* gz := mlift (get_zle_gain_veto cfg) in
    let zs := normalize_zle gz <$> zs in
    mmodify (with_out (set_out_zles zs)) >>>
    let* gi := mlift (get_hit_gain_veto cfg) in
    let hs := normalize_hit_integral gi <$> hs in
    mmodify (with_out (set_out_hits hs)) >>>
    let* gm := mlift (get_hit_gain_veto cfg) in
    let hs := normalize_hit_max gm <$> hs in
    mmodify (with_out (set_out_hits hs)) >>>
    mmodify (with_out (set_out_hits (merge_sort hit_key_le hs))) >>>
    mret true
  else
    logp (WarnNoValidData i) >>> mret false.

Definition process_event (cfg : config) (i : nat) (ev : event) : M pstate bool :=
  collect cfg i ev >>> finish cfg i.

End process_event.

(** ** update_config_parameter *)

(** the unit constants [nu.MHz], [nu.ns] and [nu.Hz] of dsutils *)
Class Units : Type := { MHz : float; ns : float; Hz : float }.

Section config.
Context `{PyText} `{Units}.

(** [elec_cfg.set(key, v)] *)
Definition cfg_set (key : string) (v : pyval) : M config unit :=
  mmodify (insert key v).

(** [param in [a, b]] *)
Definition among (param a b : string) : bool :=
  String.eqb param a || String.eqb param b.

Definition update_config_parameter (section param : string) (value : pyval)
    : M config unit :=
  if String.eqb section "daq" then
    if String.eqb param "snr" then
      let* f := mlift (py_float value) in cfg_set "daq.snr" (PFloat f)
    else if String.eqb param "sampling" then
      let* f := mlift (py_float value) in
      cfg_set "daq.sampling" (PFloat (PrimFloat.mul f MHz))
    else if String.eqb param "jitter" then
      let* f := mlift (py_float value) in
      cfg_set "daq.jitter" (PFloat (PrimFloat.mul f ns))
    else if String.eqb param "noise_spectrum" then
      cfg_set "daq.noise_spectrum" (PStr (py_str value))
    else mret tt
  else if String.eqb section "sipm" then
    if String.eqb param "dcr" then
      let* f := mlift (py_float value) in
      cfg_set "sipm.dcr" (PFloat (PrimFloat.mul f Hz))
    else if String.eqb param "tau" then
      let* f := mlift (py_float value) in
      cfg_set "sipm.tau" (PFloat (PrimFloat.mul f ns))
    else mret tt
  else if String.eqb section "zle" then
    if among param "pre_threshold" "post_threshold" then
      let* f := mlift (py_float value) in cfg_set ("zle." +:+ param) (PFloat f)
    else if among param "pre_trigger" "post_trigger" then
      let* z := mlift (py_int value) in cfg_set ("zle." +:+ param) (PInt z)
    else mret tt
  else mret tt.

End config.

(** ** dsio and the world of one run *)

Section io.
Context `{DsTypes}.

(** A file written by [SliceWriter]: the header and the events written. *)
Record slice_file : Type := MkSlice {
  sf_header : file_header;
  sf_events : list out_event
}.

(** What [G4DSBinaryReader] finds in a file: the header, the events it
    yields and, when reading breaks off, the exception that ends it. *)
Record input_file : Type := MkInput {
  in_header : file_header;
  in_events : list event;
  in_fail : option exn
}.

(** [mkdir_refused dir] is the [OSError] with which the operating system
    answers the creation of the directory [dir] for a reason that the
    files of the [world] do not show ([PermissionError], a read-only file
    system, an input file in the way), if it does. *)
Class DsIO : Type := {
  read_file : string → list (string * pyval) → result input_file;
  create_empty_event : file_header → out_event;
  mkdir_refused : string → option exn
}.

Record world : Type := MkWorld {
  w_cfg : config;
  w_log : list log_entry;
  w_files : gmap string slice_file;
  w_dirs : gset string;
  w_open : gset nat;
  w_next : nat
}.

Definition on_cfg (f : config → config) (w : world) : world :=
  MkWorld (f (w_cfg w)) (w_log w) (w_files w) (w_dirs w) (w_open w) (w_next w).
Definition on_log (f : list log_entry → list log_entry) (w : world) : world :=
  MkWorld (w_cfg w) (f (w_log w)) (w_files w) (w_dirs w) (w_open w) (w_next w).
Definition on_files (f : gmap string slice_file → gmap string slice_file)
    (w : world) : world :=
  MkWorld (w_cfg w) (w_log w) (f (w_files w)) (w_dirs w) (w_open w) (w_next w).
Definition on_dirs (f : gset string → gset string) (w : world) : world :=
  MkWorld (w_cfg w) (w_log w) (w_files w) (f (w_dirs w)) (w_open w) (w_next w).
(** a new open handle, numbered [w_next] *)
Definition alloc_handle (w : world) : world :=
  MkWorld (w_cfg w) (w_log w) (w_files w) (w_dirs w)
          ({[ w_next w ]} ∪ w_open w) (S (w_next w)).
Definition release_handle (id : nat) (w : world) : world :=
  MkWorld (w_cfg w) (w_log w) (w_files w) (w_dirs w) (w_open w ∖ {[ id ]}) (w_next w).

Definition logw (e : log_entry) : M world unit := mmodify (on_log (λ l, l ++ [e])).

(** run a computation on the configuration inside the world *)
Definition in_cfg {A} (m : M config A) : M world A :=
  λ w, let '(r, c) := m (w_cfg w) in (r, on_cfg (λ _, c) w).

Record reader : Type := MkReader { rd_id : nat; rd_file : input_file }.
Record writer : Type := MkWriter { wr_id : nat; wr_path : string }.

Context `{!DsIO}.

(** [G4DSBinaryReader(input_path, **kwargs)] *)
Definition open_reader (path : string) (opts : list (string * pyval)) : M world reader :=
  let* f := mlift (read_file path opts) in
  let* w := mget in
  mmodify alloc_handle >>> mret (MkReader (w_next w) f).

(** [SliceWriter(path, header=header)]: the file is created with its header *)
Definition open_writer (path : string) (header : file_header) : M world writer :=
  let* w := mget in
  mmodify (on_files (insert path (MkSlice header []))) >>>
  mmodify alloc_handle >>> mret (MkWriter (w_next w) path).

(** [close()] of a reader or a writer *)
Definition close_handle (id : nat) : M world unit := mmodify (release_handle id).

(** the first of the parents of [p] and [p] itself that is a regular file *)
Definition file_in_the_way (p : Path) (files : gmap string slice_file)
    : option string :=
  List.find (λ s, bool_decide (is_Some (files !! s)))
            (Path_str <$> Path_with_parents p).

(** [output_dir.mkdir(parents=True, exist_ok=True)]: directories that are
    there are left alone, the missing ones are made.  [os.mkdir] raises
    [NotADirectoryError] when a parent of the directory is a regular
    file and [FileExistsError] when the path itself is one ([exist_ok]
    only forgives a directory); nothing is made then. *)
Definition mkdir_parents (p : Path) : M world unit :=
  let* w := mget in
  match mkdir_refused (Path_str p) with
  | Some e => mraise e
  | None =>
    match file_in_the_way p (w_files w) with
    | Some s =>
      mraise (Exn (if String.eqb s (Path_str p) then FileExistsError
                   else NotADirectoryError) s)
    | None =>
      mmodify (on_dirs (λ d, list_to_set (Path_str <$> Path_with_parents p) ∪ d))
    end
  end.

(** [ev['pe']['time'] += off] *)
Definition add_offset (off : option pyval) (a : list pe) : result (list pe) :=
  let shift f := (λ p, MkPe (PrimFloat.add (pe_time p) f) (pe_rest p)) <$> a in
  match off with
  | Some (PFloat f) => Ok (shift f)
  | Some (PInt z) => Ok (shift (float_of_Z z))
  | _ => Raise (Exn TypeError "unsupported operand type(s) for +=")
  end.

End io.

(** ** process_with_params *)

Section sweep.
Context `{DsTypes} `{!DsElec} `{!DsIO} `{PyText} `{Units}.

(** [process_event(i, ev, out)] as called from the driver: the
    configuration is the current one, the log is the log of the run. *)
Definition call_process_event (i : nat) (ev : event) (out : out_event)
    : M world (bool * out_event) :=
  λ w, let '(r, st) := process_event (w_cfg w) i ev
                         (MkPstate out (w_log w) [] [] None) in
       (match r with
        | Ok b => Ok (b, ps_out st)
        | Raise e => Raise e
        end,
        on_log (λ _, ps_log st) w).

(** [fout.write(out)], on the file map *)
Definition append_event (path : string) (out : out_event)
    (files : gmap string slice_file) : gmap string slice_file :=
  alter (λ f, MkSlice (sf_header f) (sf_events f ++ [out])) path files.

(** The body of the loop over [enumerate(fin)] for event [i]; the result
    is the new value of the counter [valid_events]. *)
Definition event_body (fin : reader) (fout : writer) (i : nat) (ev : event)
    (valid_events : nat) : M world nat :=
  let out := create_empty_event (in_header (rd_file fin)) in
  let* w := mget in
  let* shifted := mlift (add_offset (w_cfg w !! "daq.offset") (ev_veto_pe ev)) in
  let ev := MkEvent shifted (Some shifted) in
  let* r := call_process_event i ev out in
  if fst r then
    mmodify (on_files (append_event (wr_path fout) (snd r))) >>>
    mret (S valid_events)
  else mret valid_events.

(** the iterations of the loop over [enumerate(fin)] from index [i] on,
    for the events [evs] *)
Fixpoint events_iter (fin : reader) (fout : writer) (i : nat) (evs : list event)
    (valid_events : nat) : M world nat :=
  match evs with
  | [] => mret valid_events
  | ev :: rest =>
      let* valid_events := event_body fin fout i ev valid_events in
      events_iter fin fout (S i) rest valid_events
  end.

(** The loop over [enumerate(fin)] with [valid_events = 0] before it: all
    the events of the file; the iterator raises [in_fail] after the last
    one when the file is broken. *)
Definition events_loop (fin : reader) (fout : writer) : M world nat :=
  let* valid_events := events_iter fin fout 0 (in_events (rd_file fin)) 0 in
  match in_fail (rd_file fin) with
  | Some e => mraise e
  | None => mret valid_events
  end.

(** the name of the output file of one value *)
Definition output_name (base_name section param : string) (value : pyval)
    (extension : string) : string :=
  base_name +:+ "_" +:+ section +:+ "_" +:+ param +:+ "_" +:+ py_str value +:+ extension.

(** [output_dir / f"{base_name}_{section}_{param}_{value}{extension}"] *)
Definition output_path_of (output_base section param : string) (value : pyval) : Path :=
  let base := Path_of_string output_base in
  Path_join (Path_parent base)
            (output_name (Path_stem base) section param value (Path_suffix base)).

(** lines 160 to 169: the configuration is updated, reader and writer
    are opened *)
Definition open_pass (input_path output_base section param : string)
    (opts : list (string * pyval)) (value : pyval) : M world (reader * writer) :=
  in_cfg (update_config_parameter section param value) >>>
  let output_path := Path_str (output_path_of output_base section param value) in
  logw (InfoProcessing section param value) >>>
  let* fin := open_reader input_path opts in
  let* fout := open_writer output_path (in_header (rd_file fin)) in
  mret (fin, fout).

(** lines 181 to 190: both are closed, the file is kept or removed *)
Definition close_pass (output_base section param : string) (value : pyval)
    (fin : reader) (fout : writer) (valid_events : nat) : M world unit :=
  let output_path := Path_str (output_path_of output_base section param value) in
  close_handle (rd_id fin) >>>
  close_handle (wr_id fout) >>>
  if (0 <? valid_events)%nat then
    logw (InfoSaved output_path valid_events)
  else
    logw (WarnNoValidEvents section param value) >>>
    let* w := mget in
    if decide (is_Some (w_files w !! output_path))
    then mmodify (on_files (delete output_path))
    else mret tt.

(** the body of the [try] of one sweep value *)
Definition sweep_value_try (input_path output_base section param : string)
    (opts : list (string * pyval)) (value : pyval) : M world unit :=
  let* ff := open_pass input_path output_base section param opts value in
  let* valid_events := events_loop (fst ff) (snd ff) in
  close_pass output_base section param value (fst ff) (snd ff) valid_events.

(** one iteration of the loop over the values *)
Definition sweep_value (input_path output_base section param : string)
    (opts : list (string * pyval)) (value : pyval) : M world unit :=
  mtry (sweep_value_try input_path output_base section param opts value)
       (λ e, logw (ErrorSweepValue section param value e)).

Definition process_with_params (input_path output_base section param : string)
    (values : list pyval) (opts : list (string * pyval)) : M world unit :=
  mkdir_parents (Path_parent (Path_of_string output_base)) >>>
  mfor values (sweep_value input_path output_base section param opts).

(** ** parse_args and main *)

(** the sweep options in the order of their [add_argument] calls *)
Definition sweep_options : list string :=
  ["snr"; "sampling"; "jitter"; "dcr"; "tau"; "pre_threshold"; "post_threshold";
   "pre_trigger"; "post_trigger"; "noise_spectrum"].

(** A command line, option by option: what was given for each. *)
Record command_line : Type := MkCommandLine {
  cl_input : string;
  cl_output : string;
  cl_start : option Z;
  cl_stop : option Z;
  cl_sweeps : gmap string string
}.

Definition opt_entry (name : string) (v : option Z) : list (string * pyval) :=
  match v with Some z => [(name, PInt z)] | None => [] end.

(** The dict returned by [parse_args], in the order of its keys.  argparse
    enters every option that has a default when parsing starts, in the
    order of the [add_argument] calls, and a value given on the command
    line replaces the default in place; [start] and [stop], whose default
    is suppressed, are entered only when given; [seeds] is popped and
    handed to [set_random_seeds]. *)
Definition parse_args (c : command_line) : list (string * pyval) :=
  [("input_path", PStr (cl_input c)); ("output_base", PStr (cl_output c))]
  ++ ((λ name, (name, from_option PStr PNone (cl_sweeps c !! name))) <$> sweep_options)
  ++ opt_entry "start" (cl_start c) ++ opt_entry "stop" (cl_stop c).

Definition param_mapping : list (string * (string * string)) :=
  [("snr", ("daq", "snr"));
   ("sampling", ("daq", "sampling"));
   ("jitter", ("daq", "jitter"));
   ("noise_spectrum", ("daq", "noise_spectrum"));
   ("dcr", ("sipm", "dcr"));
   ("tau", ("sipm", "tau"));
   ("pre_threshold", ("zle", "pre_threshold"));
   ("post_threshold", ("zle", "post_threshold"));
   ("pre_trigger", ("zle", "pre_trigger"));
   ("post_trigger", ("zle", "post_trigger"))].

(** a dict as the list of its items *)
Fixpoint dict_get {V} (key : string) (d : list (string * V)) : option V :=
  match d with
  | [] => None
  | (k, v) :: rest => if String.eqb k key then Some v else dict_get key rest
  end.

Fixpoint dict_remove {V} (key : string) (d : list (string * V)) : list (string * V) :=
  match d with
  | [] => []
  | (k, v) :: rest =>
      if String.eqb k key then dict_remove key rest else (k, v) :: dict_remove key rest
  end.

(** [kwargs.pop(key)] *)
Definition dict_pop {V} (key : string) (d : list (string * V))
    : result (V * list (string * V)) :=
  match dict_get key d with
  | Some v => Ok (v, dict_remove key d)
  | None => Raise (Exn KeyError key)
  end.

Definition is_None (v : pyval) : bool :=
  match v with PNone => true | _ => false end.

(** [param_value.split(',')], stripped item by item *)
Definition split_values (param_value : pyval) : result (list string) :=
  match param_value with
  | PStr s => Ok (strip <$> split "," s)
  | _ => Raise (Exn AttributeError "object has no attribute 'split'")
  end.

(** [[float(x.strip()) for x in ...]]: the first failure is raised *)
Fixpoint floats_of (xs : list string) : result (list pyval) :=
  match xs with
  | [] => Ok []
  | x :: rest =>
      match float_of_string x with
      | Raise e => Raise e
      | Ok f =>
          match floats_of rest with
          | Raise e => Raise e
          | Ok fs => Ok (PFloat f :: fs)
          end
      end
  end.

(** the values of a sweep, from the text of its option *)
Definition sweep_values (param : string) (param_value : pyval) : result (list pyval) :=
  match split_values param_value with
  | Raise e => Raise e
  | Ok xs => if String.eqb param "noise_spectrum" then Ok (PStr <$> xs) else floats_of xs
  end.

(** the loop of [main] over [list(kwargs.items())], and the call after it *)
Fixpoint main_loop (input_path output_base : string) (items : list (string * pyval))
    : M world unit :=
  match items with
  | [] =>
      let* w := mget in
      process_with_params input_path output_base "daq" "snr"
        [from_option id PNone (w_cfg w !! "daq.snr")] []
  | (param_name, param_value) :: rest =>
      match (if is_None param_value then None else dict_get param_name param_mapping) with
      | Some (section, param) =>
          let* values := mlift (sweep_values param param_value) in
          logw (InfoSweeping section param values) >>>
          process_with_params input_path output_base section param values []
      | None => main_loop input_path output_base rest
      end
  end.

(** The two paths are strings in every dict that [parse_args] returns;
    for a value of another type the model raises the TypeError of
    [Path(...)] here. *)
Definition as_path (v : pyval) : result string :=
  match v with
  | PStr s => Ok s
  | _ => Raise (Exn TypeError "expected str, bytes or os.PathLike object")
  end.

Definition main (kwargs : list (string * pyval)) : M world unit :=
  let* p := mlift (dict_pop "input_path" kwargs) in
  let* q := mlift (dict_pop "output_base" (snd p)) in
  let* input_path := mlift (as_path (fst p)) in
  let* output_base := mlift (as_path (fst q)) in
  main_loop input_path output_base (snd q).

End sweep.

(** ** A small detector, for running the program on concrete events *)

Module Demo.

Definition fl (z : Z) : float := float_of_Z z.

(** Amplitudes are floats divided by [PrimFloat.div]; a photoelectron
    carries its channel, a waveform is the list of the channels hit. *)
#[export] Instance types : DsTypes := {|
  amp := float;
  gain := float;
  amp_div := PrimFloat.div;
  pe_data := Z;
  zle_data := Z;
  hit_data := unit;
  waveforms := list Z;
  summed_waveforms := nat;
  downsampled := nat;
  file_header := string
|}.

Definition outside (ts gs : list float) (p : pe) : bool :=
  negb (existsb (λ tg, in_gate (fst tg) (snd tg) p) (zip ts gs)).

(** One ZLE interval of integral 8 per photoelectron and one hit of
    integral 6 and maximum 12 per interval, the hits last interval first.
    Gate discovery answers [gates]; the summation fails with [sum_fail t]
    at the gate that starts at [t]; the pass outside the gates fails with
    [outside_fail]. *)
Definition elec (gates : result (list float * list float))
    (sum_fail : float → option exn) (outside_fail : option exn) : DsElec := {|
  find_waveform_gates := λ _ _, gates;
  add_noise_pes := λ _ a _, Ok a;
  add_daq_jitter := λ _ a, Ok a;
  create_veto_waveforms := λ _ pes _ _, Ok (pe_rest <$> pes);
  find_zle_intervals := λ _ wfs _, Ok (MkZle (fl 8) <$> wfs);
  sum_zles := λ _ z _ s t,
    match sum_fail t with
    | Some e => Raise e
    | None => Ok (Some (length z + default 0 s))
    end;
  find_hits := λ _ _ z _,
    Ok (reverse (imap (λ j _, MkHit (Z.of_nat j) 0 (fl 6) (fl 12) tt) z));
  downsample_summed_wfs := λ _ s, Ok (s, s);
  get_pes_outside_gates := λ _ a ts gs, Ok (List.filter (outside ts gs) a);
  find_effective_zles_hits := λ _ pes,
    match outside_fail with
    | Some e => Raise e
    | None => Ok (MkZle (fl 8) <$> (pe_rest <$> pes),
                  imap (λ j _, MkHit (Z.of_nat j) 0 (fl 6) (fl 12) tt) pes)
    end;
  get_zle_gain_veto := λ _, Ok (MkZleGain (fl 2));
  get_hit_gain_veto := λ _, Ok (MkHitGain (fl 2) (fl 4))
|}.

Definition too_short : exn :=
  Exn ValueError "ZLE interval too short for baseline subtraction".
Definition broken : exn := Exn RuntimeError "no photoelectrons".

(** three photoelectrons: two in the gate from 0 to 5, one after it *)
Definition pes3 : list pe := [MkPe (fl 1) 7%Z; MkPe (fl 2) 8%Z; MkPe (fl 9) 3%Z].
Definition one_gate : result (list float * list float) := Ok ([fl 0], [fl 5]).
Definition no_gate : result (list float * list float) := Ok ([], []).

Definition ev3 : event := MkEvent pes3 (Some pes3).

Definition start (log : list log_entry) : pstate := MkPstate empty_out log [] [] None.

(** input files: [in.fil] holds [ev3] twice *)
#[export] Instance io : DsIO := {|
  read_file := λ path _,
    if String.eqb path "in.fil"
    then Ok (MkInput "header" [ev3; ev3] None)
    else Raise (Exn OSError "No such file or directory");
  create_empty_event := λ _, empty_out;
  mkdir_refused := λ _, None
|}.

#[export] Instance text : PyText := {|
  float_parse_general := λ _, Raise (Exn ValueError "could not convert string to float");
  float_repr_general := λ _, "?";
  int_parse_general := λ _, Raise (Exn ValueError "invalid literal for int()")
|}.

#[export] Instance units : Units := {| MHz := fl 1000000; ns := fl 1; Hz := fl 1 |}.

Definition elec_ok : DsElec := elec one_gate (λ _, None) None.
(** the summation finds every ZLE interval too short *)
Definition elec_short : DsElec := elec one_gate (λ _, Some too_short) None.
(** gate discovery raises *)
Definition elec_broken : DsElec := elec (Raise broken) (λ _, None) None.
(** no gate is found and the pass outside the gates fails *)
Definition elec_silent : DsElec := elec no_gate (λ _, None) (Some broken).

Definition w0 : world :=
  MkWorld {[ "daq.offset" := PFloat (fl 0); "daq.snr" := PFloat (fl 10) ]} [] ∅ ∅ ∅ 0.

(** [process_event] for event 0 with an empty configuration *)
Definition process_at (el : DsElec) (ev : event) : result bool * pstate :=
  @process_event types el ∅ 0 ev (start []).

(** the gate from 0 to 5 of [ev3]: its waveforms, its ZLE intervals, the
    hits that dselec finds in it and the body of the loop for it *)
Definition gate_wfs : waveforms := [7; 8]%Z.
Definition gate_zles : list zle := MkZle (fl 8) <$> gate_wfs.
Definition gate_hits (el : DsElec) : result (list hit) :=
  @find_hits types el ∅ gate_wfs gate_zles (fl 0).
Definition gate_at (el : DsElec) : result unit * pstate :=
  @gate_body types el ∅ 0 pes3 (fl 0, fl 5) (start []).

(** the reader and the writer of the first sweep value from [w0] *)
Definition fin0 : reader := MkReader 0 (MkInput "header" [ev3; ev3] None).
Definition fout0 : writer := MkWriter 1 "out/run_daq_snr_5.0.slc".

(** the world after [open_pass] for the value 5.0 of daq.snr *)
Definition opened (el : DsElec) : result (reader * writer) * world :=
  @open_pass types io text units "in.fil" "out/run.slc" "daq" "snr" []
             (PFloat (fl 5)) w0.

(** the loop over the events after it *)
Definition looped (el : DsElec) : result nat * world :=
  @events_loop types el io fin0 fout0 (snd (opened el)).

(** [main] on a command line, from [w0] *)
Definition main_at (el : DsElec) (c : command_line) : result unit * world :=
  @main types el io text units (parse_args c) w0.

(** one value of a sweep of daq.snr over [in.fil], from [w0] *)
Definition sweep_at (el : DsElec) (value : pyval) : result unit * world :=
  @sweep_value types el io text units "in.fil" "out/run.slc" "daq" "snr" [] value w0.

End Demo.

(** ** Notions used in the statements *)

Section notions.
Context `{DsTypes} `{!DsElec}.

(** [z] and [h] are the ZLE records and the hits that dselec returned for
    one gate, or for the photoelectrons outside the gates *)
Definition produced (z : list zle) (h : list hit) : Prop :=
  (∃ cfg wfs t, find_hits cfg wfs z t = Ok h) ∨
  (∃ cfg pes, find_effective_zles_hits cfg pes = Ok (z, h)).

(** What one pass (a gate, or the rest outside the gates) does to the
    running lists: nothing, or one ZLE array and one hit array appended,
    the hits moved by the number of ZLE records already in the lists. *)
Inductive pass_effect (st st' : pstate) : Prop :=
  | pass_skipped :
      ps_hits st' = ps_hits st → ps_zles st' = ps_zles st → pass_effect st st'
  | pass_appended (z : list zle) (h : list hit) :
      produced z h →
      ps_zles st' = ps_zles st ++ [z] →
      ps_hits st' = ps_hits st ++ [shift_zle_id (count_zles (ps_zles st)) <$> h] →
      pass_effect st st'.

(** A property of the running lists that holds when they are empty and
    survives every append holds after the loop over the gates. *)
Definition list_invariant (Q : list (list zle) → list (list hit) → Prop) : Prop :=
  ∀ zs hs z h, produced z h → Q zs hs →
    Q (zs ++ [z]) (hs ++ [shift_zle_id (count_zles zs) <$> h]).

(** the steps of [collect] before the loop over the gates *)
Definition before_gates (cfg : config) (ev : event)
    : result (list pe * (list float * list float)) :=
  match ev_pe ev with
  | None => Raise (Exn KeyError "'pe'")
  | Some a =>
      match find_waveform_gates cfg a with
      | Raise e => Raise e
      | Ok tg =>
          match add_noise_pes cfg a (cfg !! "daq.slice") with
          | Raise e => Raise e
          | Ok noisy =>
              match add_daq_jitter cfg noisy with
              | Raise e => Raise e
              | Ok pe' => Ok (pe', tg)
              end
          end
      end
  end.

(** both divisions of the calibration of one hit *)
Definition calibrate_hit (g : hit_gain) (h : hit) : hit :=
  MkHit (hit_zle_id h) (hit_sample h)
        (amp_div (hit_integral h) (hit_integral_mean g))
        (amp_div (hit_max h) (hit_max_mean g)) (hit_rest h).

(** The hits that dselec returns for one pass carry, as [zle_id], the
    position of their ZLE record in the array of that pass. *)
Definition local_ids (z : list zle) (h : list hit) : Prop :=
  Forall (λ x, (0 ≤ hit_zle_id x < Z.of_nat (length z))%Z) h.

Definition zle_id_contract : Prop := ∀ z h, produced z h → local_ids z h.

(** The running lists from offset [off] on: the hits of every pass are
    hits with local ids, moved by the number of ZLE records of the passes
    before it. *)
Inductive offset_passes : Z → list (list zle) → list (list hit) → Prop :=
  | offset_passes_nil off : offset_passes off [] []
  | offset_passes_cons off z raw zles hits :
      local_ids z raw →
      offset_passes (off + Z.of_nat (length z)) zles hits →
      offset_passes off (z :: zles) ((shift_zle_id off <$> raw) :: hits).

(** where the records of pass [k] start in the concatenated ZLE sequence *)
Definition block_start (zles : list (list zle)) (k : nat) : nat :=
  length (concat (take k zles)).

(** every hit of pass [k] has its [zle_id] among the positions of the ZLE
    records of pass [k] in the concatenated sequence *)
Definition ids_in_own_block (zles : list (list zle)) (hits : list (list hit)) : Prop :=
  ∀ k z h x, zles !! k = Some z → hits !! k = Some h → x ∈ h →
    (Z.of_nat (block_start zles k) ≤ hit_zle_id x
     < Z.of_nat (block_start zles k + length z))%Z.

(** hits of different passes never share a [zle_id] *)
Definition ids_disjoint (hits : list (list hit)) : Prop :=
  ∀ j k hj hk x y, hits !! j = Some hj → hits !! k = Some hk → j ≠ k →
    x ∈ hj → y ∈ hk → hit_zle_id x ≠ hit_zle_id y.

(** gate discovery, noise injection or jitter raises [e] on the
    photoelectrons [a] *)
Definition fails_before_gates (cfg : config) (a : list pe) (e : exn) : Prop :=
  find_waveform_gates cfg a = Raise e ∨
  (∃ tg, find_waveform_gates cfg a = Ok tg ∧
         add_noise_pes cfg a (cfg !! "daq.slice") = Raise e) ∨
  (∃ tg noisy, find_waveform_gates cfg a = Ok tg ∧
               add_noise_pes cfg a (cfg !! "daq.slice") = Ok noisy ∧
               add_daq_jitter cfg noisy = Raise e).

End notions.

(** ** Notions used in the statements about the driver *)

(** every run of [m] relates the state before to the state after,
    whether [m] returns or raises *)
Definition preserves {S A} (R : S → S → Prop) (m : M S A) : Prop :=
  ∀ s r s', m s = (r, s') → R s s'.

Section driver_notions.
Context `{DsTypes}.

(** the files other than [path] are the same in [w] and [w'] *)
Definition files_elsewhere (path : string) (w w' : world) : Prop :=
  ∀ p, p ≠ path → w_files w' !! p = w_files w !! p.

(** What the loop over the events leaves alone: the configuration, the
    directories, the handles and every file but the one being written,
    which stays in place. *)
Definition pass_frame (path : string) (w w' : world) : Prop :=
  w_cfg w' = w_cfg w ∧ w_dirs w' = w_dirs w ∧
  w_open w' = w_open w ∧ w_next w' = w_next w ∧
  files_elsewhere path w w' ∧
  (is_Some (w_files w !! path) → is_Some (w_files w' !! path)).

End driver_notions.

(** ** The configuration table as the specification words it *)

Section config_table.
Context `{PyText} `{Units}.

(** the target type of a parameter, a float with its unit scale if any *)
Inductive target : Type :=
  | AsFloat (scale : option float)
  | AsInt
  | AsStr.

Definition config_table : list (string * string * target) :=
  [("daq", "snr", AsFloat None);
   ("daq", "sampling", AsFloat (Some MHz));
   ("daq", "jitter", AsFloat (Some ns));
   ("daq", "noise_spectrum", AsStr);
   ("sipm", "dcr", AsFloat (Some Hz));
   ("sipm", "tau", AsFloat (Some ns));
   ("zle", "pre_threshold", AsFloat None);
   ("zle", "post_threshold", AsFloat None);
   ("zle", "pre_trigger", AsInt);
   ("zle", "post_trigger", AsInt)].

Fixpoint table_lookup (section param : string) (t : list (string * string * target))
    : option target :=
  match t with
  | [] => None
  | (s, p, x) :: rest =>
      if String.eqb section s && String.eqb param p then Some x
      else table_lookup section param rest
  end.

(** the value converted to the target type and multiplied by the scale *)
Definition convert (t : target) (value : pyval) : result pyval :=
  match t with
  | AsFloat scale =>
      match py_float value with
      | Raise e => Raise e
      | Ok f => Ok (PFloat (match scale with Some u => PrimFloat.mul f u | None => f end))
      end
  | AsInt =>
      match py_int value with
      | Raise e => Raise e
      | Ok z => Ok (PInt z)
      end
  | AsStr => Ok (PStr (py_str value))
  end.

(** A known pair sets the key [section.param] and nothing else; an
    unknown pair changes nothing. *)
Definition update_config_by_table (section param : string) (value : pyval)
    : M config unit :=
  λ cfg,
    match table_lookup section param config_table with
    | None => (Ok tt, cfg)
    | Some t =>
        match convert t value with
        | Raise e => (Raise e, cfg)
        | Ok v => (Ok tt, <[ section +:+ "." +:+ param := v ]> cfg)
        end
    end.

End config_table.

(** ** Which sweep option is honoured *)

(** the first option of [order] that was given on the command line *)
Fixpoint first_supplied (order : list string) (given : gmap string string)
    : option (string * string) :=
  match order with
  | [] => None
  | name :: rest =>
      match given !! name with
      | Some s => Some (name, s)
      | None => first_supplied rest given
      end
  end.

(** the order in which [param_mapping] lists the options *)
Definition mapping_order : list string := fst <$> param_mapping.

(** ** Text without a slash *)

(** [c in s] for a character *)
Fixpoint occurs (c : ascii) (s : string) : bool :=
  match s with
  | EmptyString => false
  | String a rest => Ascii.eqb a c || occurs c rest
  end.

Definition no_slash (s : string) : Prop := occurs "/" s = false.

(** ** Notions used in the further statements *)

Section further_notions.
Context `{DsTypes} `{!DsElec}.

(** The running lists did not shrink from [s] to [s'], and the dict [out]
    is the same when they did not grow. *)
Definition quiet (s s' : pstate) : Prop :=
  length (ps_hits s) ≤ length (ps_hits s') ∧
  (length (ps_hits s') = length (ps_hits s) → ps_out s' = ps_out s).

(** the log of [s'] is the log of [s] with entries added at its end *)
Definition log_extends (s s' : pstate) : Prop :=
  ∃ added, ps_log s' = ps_log s ++ added.

(** [zles] and [hits] are stored in an output event *)
Definition has_records (o : out_event) : Prop :=
  is_Some (out_zles o) ∧ is_Some (out_hits o).

End further_notions.

(** ** Further detectors *)

Module Scenarios.
Import Demo.

(** the summation fails for another reason than a short interval *)
Definition elec_sum_error : DsElec := elec one_gate (λ _, Some broken) None.

(** [el] with another hit extraction *)
Definition with_find_hits (el : DsElec)
    (f : config → waveforms → list zle → float → result (list hit)) : DsElec := {|
  find_waveform_gates := @find_waveform_gates types el;
  add_noise_pes := @add_noise_pes types el;
  add_daq_jitter := @add_daq_jitter types el;
  create_veto_waveforms := @create_veto_waveforms types el;
  find_zle_intervals := @find_zle_intervals types el;
  sum_zles := @sum_zles types el;
  find_hits := f;
  downsample_summed_wfs := @downsample_summed_wfs types el;
  get_pes_outside_gates := @get_pes_outside_gates types el;
  find_effective_zles_hits := @find_effective_zles_hits types el;
  get_zle_gain_veto := @get_zle_gain_veto types el;
  get_hit_gain_veto := @get_hit_gain_veto types el
|}.

(** [el] with another downsampling *)
Definition with_downsample (el : DsElec)
    (f : config → summed_waveforms → result (downsampled * downsampled)) : DsElec := {|
  find_waveform_gates := @find_waveform_gates types el;
  add_noise_pes := @add_noise_pes types el;
  add_daq_jitter := @add_daq_jitter types el;
  create_veto_waveforms := @create_veto_waveforms types el;
  find_zle_intervals := @find_zle_intervals types el;
  sum_zles := @sum_zles types el;
  find_hits := @find_hits types el;
  downsample_summed_wfs := f;
  get_pes_outside_gates := @get_pes_outside_gates types el;
  find_effective_zles_hits := @find_effective_zles_hits types el;
  get_zle_gain_veto := @get_zle_gain_veto types el;
  get_hit_gain_veto := @get_hit_gain_veto types el
|}.

(** [el] with other gain tables *)
Definition with_gains (el : DsElec) (gz : config → result zle_gain)
    (gh : config → result hit_gain) : DsElec := {|
  find_waveform_gates := @find_waveform_gates types el;
  add_noise_pes := @add_noise_pes types el;
  add_daq_jitter := @add_daq_jitter types el;
  create_veto_waveforms := @create_veto_waveforms types el;
  find_zle_intervals := @find_zle_intervals types el;
  sum_zles := @sum_zles types el;
  find_hits := @find_hits types el;
  downsample_summed_wfs := @downsample_summed_wfs types el;
  get_pes_outside_gates := @get_pes_outside_gates types el;
  find_effective_zles_hits := @find_effective_zles_hits types el;
  get_zle_gain_veto := gz;
  get_hit_gain_veto := gh
|}.

(** [el] with another ZLE detection *)
Definition with_zle_intervals (el : DsElec)
    (f : config → waveforms → float → result (list zle)) : DsElec := {|
  find_waveform_gates := @find_waveform_gates types el;
  add_noise_pes := @add_noise_pes types el;
  add_daq_jitter := @add_daq_jitter types el;
  create_veto_waveforms := @create_veto_waveforms types el;
  find_zle_intervals := f;
  sum_zles := @sum_zles types el;
  find_hits := @find_hits types el;
  downsample_summed_wfs := @downsample_summed_wfs types el;
  get_pes_outside_gates := @get_pes_outside_gates types el;
  find_effective_zles_hits := @find_effective_zles_hits types el;
  get_zle_gain_veto := @get_zle_gain_veto types el;
  get_hit_gain_veto := @get_hit_gain_veto types el
|}.

(** hit extraction raises *)
Definition elec_no_hits : DsElec := with_find_hits elec_ok (λ _ _ _ _, Raise broken).
(** downsampling raises *)
Definition elec_no_downsample : DsElec := with_downsample elec_ok (λ _ _, Raise broken).
(** the table of the hit gains cannot be read *)
Definition elec_no_gain : DsElec :=
  with_gains elec_ok (@get_zle_gain_veto types elec_ok) (λ _, Raise broken).
(** the pass outside the gates fails, the gate succeeds *)
Definition elec_outside_fails : DsElec := elec one_gate (λ _, None) (Some broken).

(** the gate holds no ZLE interval, hence no hit, and the pass outside
    the gates fails *)
Definition elec_empty_gate : DsElec :=
  with_zle_intervals elec_outside_fails (λ _ _ _, Ok []).

(** a file named [out] where the output directory is to be made *)
Definition w_blocked : world :=
  on_files (insert "out" (@MkSlice types "header" [])) w0.

(** a sweep of daq.snr over [in.fil] with the output base [base], from [w] *)
Definition sweep_from (base : string) (w : world) : result unit * world :=
  @process_with_params types elec_ok io text units "in.fil" base "daq" "snr"
    [PFloat (fl 5)] [] w.

(** the loop over the gates of [ev3] *)
Definition gates_at (el : DsElec) : result unit * pstate :=
  @mfor pstate _ [(fl 0, fl 5)] (@gate_body types el ∅ 0 pes3) (start []).

(** the pass outside the gates of [ev3] *)
Definition outside_at (el : DsElec) : result unit * pstate :=
  @outside_gates types el ∅ 0 pes3 [fl 0] [fl 5] (start []).

End Scenarios.

(** ** Notions used in the statements about one sweep value *)

Section sweep_notions.
Context `{DsTypes} `{!DsElec} `{!DsIO} `{PyText} `{Units}.

(** the body of the [try] of one sweep value after the update of the
    configuration: lines 163 to 190 *)
Definition after_update (input_path output_base section param : string)
    (opts : list (string * pyval)) (value : pyval) : M world unit :=
  let output_path := Path_str (output_path_of output_base section param value) in
  let* ff := (logw (InfoProcessing section param value) >>>
              let* fin := open_reader input_path opts in
              let* fout := open_writer output_path (in_header (rd_file fin)) in
              mret (fin, fout)) in
  let* valid_events := events_loop (fst ff) (snd ff) in
  close_pass output_base section param value (fst ff) (snd ff) valid_events.

(** the handler of one sweep value: line 193 *)
Definition sweep_handler (section param : string) (value : pyval) (e : exn)
    : M world unit :=
  logw (ErrorSweepValue section param value e).

(** the configuration is the same in [w] and [w'] *)
Definition same_cfg (w w' : world) : Prop := w_cfg w' = w_cfg w.

(** neither files nor handles differ between [w] and [w'] *)
Definition same_storage (w w' : world) : Prop :=
  w_files w' = w_files w ∧ w_open w' = w_open w ∧ w_next w' = w_next w.

End sweep_notions.

(** ** Notions used in the statements about main *)

Section main_notions.
Context `{DsTypes} `{!DsElec} `{!DsIO} `{PyText} `{Units}.

(** the loop of [main] skips the item: its value is [None] or its name is
    no sweep option *)
Definition skipped (item : string * pyval) : Prop :=
  is_None (snd item) = true ∨ dict_get (fst item) param_mapping = None.

(** what [main] does for the item it honours: lines 262 to 270 *)
Definition run_sweep (input_path output_base section param : string)
    (param_value : pyval) : M world unit :=
  let* values := mlift (sweep_values param param_value) in
  logw (InfoSweeping section param values) >>>
  process_with_params input_path output_base section param values [].

End main_notions.

Definition is_PFloat (v : pyval) : Prop := ∃ f, v = PFloat f.
Definition is_PStr (v : pyval) : Prop := ∃ s, v = PStr s.

Section out_notions.
Context `{DsTypes}.

(** the key 'pe' of [out] is the same in [s] and [s'] *)
Definition same_pe (s s' : pstate) : Prop :=
  out_pe (ps_out s') = out_pe (ps_out s).

End out_notions.
(** * Properties *)

Ltac munfold :=
  unfold mbind, mret, mlift, mmodify, mget, mtry, mraise, logp, logw in *.

(** ** Python text and paths *)

Example path_demo :
  let p := Path_of_string "out//./run.tar.slc" in
  (Path_str p, Path_str (Path_parent p), Path_stem p, Path_suffix p,
   strip "  5 ", split "," "a,,b", contains "too short" "ZLE interval too short!")
  = ("out/run.tar.slc", "out", "run.tar", ".slc", "5", ["a"; ""; "b"], true).
Proof. reflexivity. Qed.

Example float_text_demo `{PyText} :
  (float_of_string " 15", float_repr (float_of_Z 10), float_repr (float_of_Z (-3)),
   py_int (PFloat (PrimFloat.div (float_of_Z 7) (float_of_Z (-2)))))
  = (Ok (float_of_Z 15), "10.0", "-3.0", Ok (-3)%Z).
Proof. reflexivity. Qed.


(** ** The passes of process_event *)

Section process_event_facts.
Context `{DsTypes} `{!DsElec}.

Lemma gate_body_effect cfg i pe' tg st :
  ∃ st', gate_body cfg i pe' tg st = (Ok tt, st') ∧ pass_effect st st'.
Proof.
  destruct tg as [t g]. unfold gate_body, try_sum_zles. munfold.
  destruct (create_veto_waveforms _ _ _ _) as [wfs|e]; simpl;
    [|eexists; split; [reflexivity|by constructor 1]].
  destruct (find_zle_intervals _ _ _) as [z|e]; simpl;
    [|eexists; split; [reflexivity|by constructor 1]].
  destruct (sum_zles _ _ _ _ _) as [s|e]; simpl.
  - destruct (find_hits _ _ _ _) as [h|e] eqn:Hh; simpl;
      [|eexists; split; [reflexivity|by constructor 1]].
    assert (produced z h) by (left; eauto).
    destruct s as [s|]; simpl.
    + destruct (downsample_summed_wfs _ _) as [tb|e]; simpl;
        (eexists; split; [reflexivity|by econstructor 2]).
    + eexists; split; [reflexivity|by econstructor 2].
  - destruct (zle_too_short e); simpl;
      (eexists; split; [reflexivity|by constructor 1]).
Qed.

Lemma outside_gates_effect cfg i pe' ts gs st :
  ∃ st', outside_gates cfg i pe' ts gs st = (Ok tt, st') ∧ pass_effect st st'.
Proof.
  unfold outside_gates. munfold.
  destruct (get_pes_outside_gates _ _ _ _) as [pes|e]; simpl;
    [|eexists; split; [reflexivity|by constructor 1]].
  destruct (find_effective_zles_hits _ _) as [[z h]|e] eqn:Hzh; simpl;
    [|eexists; split; [reflexivity|by constructor 1]].
  eexists; split; [reflexivity|].
  econstructor 2; [right; eauto|done..].
Qed.

Lemma pass_effect_inv Q st st' :
  list_invariant Q → pass_effect st st' →
  Q (ps_zles st) (ps_hits st) → Q (ps_zles st') (ps_hits st').
Proof.
  intros HQ [Hh Hz|z h Hp Hz Hh] HP; rewrite Hh, Hz; [done|]. by apply HQ.
Qed.

Lemma gates_loop_inv Q cfg i pe' tgs st :
  list_invariant Q →
  Q (ps_zles st) (ps_hits st) →
  ∃ st', mfor tgs (gate_body cfg i pe') st = (Ok tt, st') ∧
         Q (ps_zles st') (ps_hits st').
Proof.
  intros HQ. revert st. induction tgs as [|tg tgs IH]; intros st HP.
  - by exists st.
  - destruct (gate_body_effect cfg i pe' tg st) as (st1 & Hg & Heff).
    destruct (IH st1) as (st2 & Hl & HP2); [by eapply pass_effect_inv|].
    exists st2. split; [|done].
    simpl. unfold mbind at 1. by rewrite Hg.
Qed.

(** An exception of the first steps leaves [collect]; otherwise
    [collect] ends normally, whatever happens in the gates. *)
Lemma collect_result Q cfg i ev st :
  list_invariant Q → Q [] [] →
  ∃ st',
    match before_gates cfg ev with
    | Raise e => collect cfg i ev st = (Raise e, st') ∧ ps_log st' = ps_log st
    | Ok _ => collect cfg i ev st = (Ok tt, st') ∧ Q (ps_zles st') (ps_hits st')
    end.
Proof.
  intros HQ Hnil. unfold collect, before_gates. munfold.
  destruct (ev_pe ev) as [a|]; simpl; [|by eexists].
  destruct (find_waveform_gates cfg a) as [tg|e]; simpl; [|by eexists].
  destruct (add_noise_pes cfg a _) as [noisy|e]; simpl; [|by eexists].
  destruct (add_daq_jitter cfg noisy) as [pe'|e]; simpl; [|by eexists].
  match goal with |- context [mfor _ _ ?s] => set (s0 := s) end.
  destruct (gates_loop_inv Q cfg i pe' (zip tg.1 tg.2) s0 HQ) as (s1 & Hl & HP1);
    [done|].
  rewrite Hl.
  destruct (outside_gates_effect cfg i pe' tg.1 tg.2 s1) as (s2 & Ho & Heff).
  exists s2. split; [done|]. by eapply pass_effect_inv.
Qed.

End process_event_facts.

(** ** The numbering of the ZLE records *)

Section numbering.
Context `{DsTypes} `{!DsElec}.

Lemma count_zles_cons (z : list zle) zles :
  count_zles (z :: zles) = (Z.of_nat (length z) + count_zles zles)%Z.
Proof. unfold count_zles. rewrite fmap_cons. simpl. lia. Qed.

Lemma count_zles_concat (zles : list (list zle)) :
  count_zles zles = Z.of_nat (length (concat zles)).
Proof.
  induction zles as [|z zles IH]; [done|].
  rewrite count_zles_cons, IH. simpl. rewrite length_app. lia.
Qed.

Lemma offset_passes_snoc off zles hits (z : list zle) h :
  offset_passes off zles hits → local_ids z h →
  offset_passes off (zles ++ [z]) (hits ++ [shift_zle_id (off + count_zles zles) <$> h]).
Proof.
  intros Hp Hz. induction Hp as [off|off z0 raw zles hits Hraw Hp IH]; simpl.
  - replace (off + count_zles [])%Z with off by (unfold count_zles; simpl; lia).
    constructor; [done|constructor].
  - constructor; [done|].
    rewrite count_zles_cons.
    replace (off + (Z.of_nat (length z0) + count_zles zles))%Z
      with (off + Z.of_nat (length z0) + count_zles zles)%Z by lia.
    apply IH.
Qed.

Lemma offset_passes_invariant :
  zle_id_contract → list_invariant (offset_passes 0).
Proof.
  intros Hc zs hs z h Hp Hq.
  apply (offset_passes_snoc 0 zs hs z h Hq). by apply Hc.
Qed.

Lemma offset_passes_length off zles hits :
  offset_passes off zles hits → length zles = length hits.
Proof. induction 1; simpl; congruence. Qed.

Lemma offset_passes_block off zles hits :
  offset_passes off zles hits →
  ∀ k z h x, zles !! k = Some z → hits !! k = Some h → x ∈ h →
    (off + Z.of_nat (block_start zles k) ≤ hit_zle_id x
     < off + Z.of_nat (block_start zles k + length z))%Z.
Proof.
  induction 1 as [off|off z0 raw zles hits Hraw Hp IH]; intros k z h x Hz Hh Hx.
  - done.
  - destruct k as [|k]; simpl in *.
    + simplify_eq. apply list_elem_of_fmap in Hx as (r & -> & Hr).
      unfold local_ids in Hraw. rewrite Forall_forall in Hraw.
      specialize (Hraw r Hr). unfold block_start. simpl. lia.
    + specialize (IH k z h x Hz Hh Hx).
      unfold block_start in *. simpl. rewrite length_app. lia.
Qed.

Lemma offset_passes_own_block zles hits :
  offset_passes 0 zles hits → ids_in_own_block zles hits.
Proof.
  intros Hp k z h x Hz Hh Hx.
  pose proof (offset_passes_block 0 zles hits Hp k z h x Hz Hh Hx). lia.
Qed.

Lemma block_start_mono (zles : list (list zle)) j k z :
  j < k → zles !! j = Some z →
  block_start zles j + length z ≤ block_start zles k.
Proof.
  revert j k. induction zles as [|z0 zles IH]; intros j k Hjk Hz; [done|].
  destruct k as [|k]; [lia|].
  unfold block_start in *. destruct j as [|j]; simpl in *.
  - simplify_eq. rewrite length_app. lia.
  - specialize (IH j k ltac:(lia) Hz). rewrite !length_app. lia.
Qed.

Lemma own_block_disjoint zles hits :
  length zles = length hits → ids_in_own_block zles hits → ids_disjoint hits.
Proof.
  intros Hlen Hb j k hj hk x y Hj Hk Hjk Hx Hy.
  destruct (lookup_lt_is_Some_2 zles j) as [zj Hzj];
    [rewrite Hlen; by eapply lookup_lt_Some|].
  destruct (lookup_lt_is_Some_2 zles k) as [zk Hzk];
    [rewrite Hlen; by eapply lookup_lt_Some|].
  pose proof (Hb j zj hj x Hzj Hj Hx).
  pose proof (Hb k zk hk y Hzk Hk Hy).
  destruct (decide (j < k)).
  - pose proof (block_start_mono zles j k zj ltac:(done) Hzj). lia.
  - pose proof (block_start_mono zles k j zk ltac:(lia) Hzk). lia.
Qed.

(** the position [block_start zles k + n] of the concatenated sequence
    holds record [n] of pass [k] *)
Lemma concat_block_lookup (zles : list (list zle)) k z n :
  zles !! k = Some z → n < length z →
  concat zles !! (block_start zles k + n) = z !! n.
Proof.
  intros Hz Hn. revert k Hz.
  induction zles as [|z0 zles IH]; intros k Hz; [done|].
  unfold block_start in *. destruct k as [|k]; simpl in *.
  - simplify_eq. by rewrite lookup_app_l.
  - rewrite length_app, lookup_app_r by lia.
    replace (length z0 + length (concat (take k zles)) + n - length z0)
      with (length (concat (take k zles)) + n) by lia.
    by apply IH.
Qed.

End numbering.

(** ** The end of process_event *)

Section finish_facts.
Context `{DsTypes} `{!DsElec}.

Lemma calibrate_hit_fmap g (hs : list hit) :
  normalize_hit_max g <$> (normalize_hit_integral g <$> hs) = calibrate_hit g <$> hs.
Proof. rewrite <- list_fmap_compose. by apply list_fmap_ext. Qed.

Lemma finish_false cfg i st st' :
  finish cfg i st = (Ok false, st') →
  (ps_hits st = [] ∨ ps_zles st = []) ∧ st' = with_log (WarnNoValidData i) st.
Proof.
  unfold finish. munfold. simpl.
  destruct (ps_hits st) as [|h hs]; simpl.
  { intros [= <-]. by split; [left|]. }
  destruct (ps_zles st) as [|z zs]; simpl.
  { intros [= <-]. by split; [right|]. }
  destruct (get_zle_gain_veto cfg); simpl; [|done].
  destruct (get_hit_gain_veto cfg); simpl; done.
Qed.

Lemma finish_true cfg i st st' :
  finish cfg i st = (Ok true, st') →
  ps_hits st ≠ [] ∧ ps_zles st ≠ [] ∧
  ps_hits st' = ps_hits st ∧ ps_zles st' = ps_zles st ∧ ps_log st' = ps_log st ∧
  ∃ gz gh,
    get_zle_gain_veto cfg = Ok gz ∧ get_hit_gain_veto cfg = Ok gh ∧
    out_zles (ps_out st') = Some (normalize_zle gz <$> concat (ps_zles st)) ∧
    out_hits (ps_out st') =
      Some (merge_sort hit_key_le (calibrate_hit gh <$> concat (ps_hits st))).
Proof.
  unfold finish. munfold. simpl.
  destruct (ps_hits st) as [|h hs] eqn:Hh; simpl; [done|].
  destruct (ps_zles st) as [|z zs] eqn:Hz; simpl; [done|].
  destruct (get_zle_gain_veto cfg) as [gz|]; simpl; [|done].
  destruct (get_hit_gain_veto cfg) as [gh|]; simpl; [|done].
  intros [= <-]. simpl. rewrite Hh, Hz.
  do 5 (split; [done|]). exists gz, gh.
  do 3 (split; [done|]). by rewrite calibrate_hit_fmap.
Qed.

(** With both lists empty [finish] answers false; with both non-empty it
    answers true as soon as the two gain tables can be read. *)
Lemma finish_returns cfg i st :
  length (ps_hits st) = length (ps_zles st) →
  (ps_hits st = [] → finish cfg i st = (Ok false, with_log (WarnNoValidData i) st)) ∧
  (ps_hits st ≠ [] → ∀ gz gh,
     get_zle_gain_veto cfg = Ok gz → get_hit_gain_veto cfg = Ok gh →
     ∃ st', finish cfg i st = (Ok true, st')).
Proof.
  intros Hlen. unfold finish. munfold. simpl. split.
  - intros Hh. by rewrite Hh.
  - intros Hh gz gh Hgz Hgh.
    destruct (ps_hits st) as [|h hs]; [done|].
    destruct (ps_zles st) as [|z zs]; [done|]. simpl.
    rewrite Hgz. simpl. rewrite Hgh. simpl. by eexists.
Qed.

Lemma lengths_invariant : list_invariant (λ zs hs, length zs = length hs).
Proof. intros zs hs z h _ Hl. rewrite !length_app. simpl. lia. Qed.

(** [process_event] returns a boolean as soon as its first steps and the
    reading of the gain tables do not raise: no failure inside a gate or
    outside the gates leaves it *)
Lemma process_event_returns cfg i ev st x gz gh :
  before_gates cfg ev = Ok x →
  get_zle_gain_veto cfg = Ok gz → get_hit_gain_veto cfg = Ok gh →
  ∃ b st', process_event cfg i ev st = (Ok b, st').
Proof.
  intros Hb Hgz Hgh. unfold process_event, mbind.
  destruct (collect_result (λ zs hs, length zs = length hs) cfg i ev st)
    as (s1 & Hc); [apply lengths_invariant|done|].
  rewrite Hb in Hc. destruct Hc as [-> Hlen].
  destruct (finish_returns cfg i s1 (eq_sym Hlen)) as [Hempty Hfull].
  destruct (ps_hits s1) as [|h hs] eqn:Hh.
  - rewrite Hempty by done. by eexists _, _.
  - destruct (Hfull ltac:(done) gz gh Hgz Hgh) as [st' ->]. by eexists _, _.
Qed.

(** every way through [process_event], for a property of the running
    lists that the passes keep *)
Lemma process_event_inv Q cfg i ev st r st' :
  list_invariant Q → Q [] [] →
  process_event cfg i ev st = (r, st') →
  match r with
  | Ok true =>
      Q (ps_zles st') (ps_hits st') ∧ ps_hits st' ≠ [] ∧ ps_zles st' ≠ [] ∧
      ∃ gz gh,
        get_zle_gain_veto cfg = Ok gz ∧ get_hit_gain_veto cfg = Ok gh ∧
        out_zles (ps_out st') = Some (normalize_zle gz <$> concat (ps_zles st')) ∧
        out_hits (ps_out st') =
          Some (merge_sort hit_key_le (calibrate_hit gh <$> concat (ps_hits st')))
  | Ok false => ps_hits st' = [] ∧ ps_zles st' = []
  | Raise e => True
  end.
Proof.
  intros HQ Hnil. unfold process_event, mbind.
  destruct (collect_result (λ zs hs, Q zs hs ∧ length zs = length hs) cfg i ev st)
    as (s1 & Hc).
  { intros zs hs z h Hp [Hq Hl]. split; [by apply HQ|by apply lengths_invariant]. }
  { done. }
  destruct (before_gates cfg ev) as [x|e].
  - destruct Hc as (-> & Hq & Hlen).
    destruct r as [[|]|e]; [| |done]; intros Hf.
    + apply finish_true in Hf as (Hh & Hz & Hh' & Hz' & _ & gz & gh & ? & ? & ? & ?).
      rewrite Hh', Hz'. split; [done|]. do 2 (split; [done|]). by exists gz, gh.
    + apply finish_false in Hf as (Hor & ->). simpl.
      destruct Hor as [Hor|Hor]; rewrite Hor in Hlen;
        destruct (ps_hits s1), (ps_zles s1); done.
  - destruct Hc as (-> & _). intros [= <- <-]. done.
Qed.

End finish_facts.

(** ** Numbering, order and calibration of the stored hits *)

Section stored_hits.
Context `{DsTypes} `{!DsElec}.

Global Instance hit_key_le_total : Total hit_key_le.
Proof. intros a b. unfold hit_key_le. lia. Qed.

Lemma Sorted_adjacent (hs : list hit) :
  Sorted hit_key_le hs →
  ∀ n a b, hs !! n = Some a → hs !! S n = Some b → hit_key_le a b.
Proof.
  induction 1 as [|x hs Hs IH Hhd]; intros n a b Ha Hb; [done|].
  destruct n as [|n]; simpl in *.
  - simplify_eq. destruct Hhd as [|y hs' Hxy]; simpl in *; by simplify_eq.
  - by eapply IH.
Qed.

Lemma elem_of_concat {A} (x : A) (ls : list (list A)) :
  x ∈ concat ls ↔ ∃ l, x ∈ l ∧ l ∈ ls.
Proof.
  rewrite list_elem_of_In, in_concat. split.
  - intros (l & Hl & Hx). exists l. by rewrite !list_elem_of_In.
  - intros (l & Hx & Hl). exists l. by rewrite <- !list_elem_of_In.
Qed.

Lemma block_end_le (zles : list (list zle)) k z :
  zles !! k = Some z → block_start zles k + length z ≤ length (concat zles).
Proof.
  revert k. induction zles as [|z0 zles IH]; intros k Hz; [done|].
  unfold block_start in *. destruct k as [|k]; simpl in *.
  - simplify_eq. rewrite length_app. lia.
  - specialize (IH k Hz). rewrite !length_app. lia.
Qed.

Lemma own_block_valid zles hits :
  length zles = length hits → ids_in_own_block zles hits →
  Forall (λ x, (0 ≤ hit_zle_id x < Z.of_nat (length (concat zles)))%Z) (concat hits).
Proof.
  intros Hlen Hb. apply Forall_forall. intros x Hx.
  apply elem_of_concat in Hx as (h & Hx & Hh).
  apply list_elem_of_lookup in Hh as (k & Hk).
  destruct (lookup_lt_is_Some_2 zles k) as [z Hz];
    [rewrite Hlen; by eapply lookup_lt_Some|].
  pose proof (Hb k z h x Hz Hk Hx). pose proof (block_end_le zles k z Hz). lia.
Qed.

(** C3: when process_event returns true, the hits of every pass were moved
    by the number of ZLE records of the passes before it; hence, dselec
    numbering the hits of a pass by the position of their ZLE record in
    that pass, the [zle_id] of a stored hit is the position of its own ZLE
    record in the stored ZLE sequence, hits of different passes never share
    one, and the stored hits are in ascending order of (zle_id, sample). *)
Theorem process_event_numbers_and_sorts_hits cfg i ev st st' :
  zle_id_contract →
  process_event cfg i ev st = (Ok true, st') →
  ∃ zs hs gh,
    out_zles (ps_out st') = Some zs ∧ out_hits (ps_out st') = Some hs ∧
    offset_passes 0 (ps_zles st') (ps_hits st') ∧
    ids_in_own_block (ps_zles st') (ps_hits st') ∧
    ids_disjoint (ps_hits st') ∧
    length zs = length (concat (ps_zles st')) ∧
    hs ≡ₚ calibrate_hit gh <$> concat (ps_hits st') ∧
    Forall (λ x, (0 ≤ hit_zle_id x < Z.of_nat (length zs))%Z) hs ∧
    (∀ n a b, hs !! n = Some a → hs !! S n = Some b → hit_key_le a b).
Proof.
  intros Hc Hp.
  pose proof (process_event_inv (offset_passes 0) cfg i ev st (Ok true) st'
                (offset_passes_invariant Hc) (offset_passes_nil 0) Hp) as Hinv.
  simpl in Hinv. destruct Hinv as (Hoff & _ & _ & gz & gh & _ & _ & Hz & Hh).
  pose proof (offset_passes_length _ _ _ Hoff) as Hlen.
  pose proof (offset_passes_own_block _ _ Hoff) as Hown.
  eexists _, _, gh. split; [exact Hz|]. split; [exact Hh|].
  split; [done|]. split; [done|].
  split; [by eapply own_block_disjoint|].
  split; [by rewrite length_fmap|].
  split; [apply merge_sort_Permutation|].
  split.
  - rewrite merge_sort_Permutation, length_fmap.
    apply Forall_fmap. eapply Forall_impl; [by apply own_block_valid|].
    intros x Hx. exact Hx.
  - apply Sorted_adjacent, (Sorted_merge_sort hit_key_le).
Qed.


(** The handler of the "too short" failure ends the iteration: nothing of
    the gate reaches the running lists, only the warning is logged. *)
Lemma gate_body_zle_too_short cfg i pe' t g st wfs z e :
  create_veto_waveforms cfg (List.filter (in_gate t g) pe') g t = Ok wfs →
  find_zle_intervals cfg wfs t = Ok z →
  sum_zles cfg z wfs (ps_summed st) t = Raise e →
  zle_too_short e = true →
  gate_body cfg i pe' (t, g) st = (Ok tt, with_log (WarnZleTooShort i) st).
Proof.
  intros Hw Hz Hs He. unfold gate_body, try_sum_zles. munfold.
  rewrite Hw. simpl. rewrite Hz. simpl. rewrite Hs. simpl. by rewrite He.
Qed.

End stored_hits.

(** ** Frames of monadic code *)

Section preserves.
Context {S : Type} (R : S → S → Prop) `{!PreOrder R}.

Lemma preserves_ret {A} (a : A) : preserves R (mret a).
Proof. intros s r s' [= <- <-]. reflexivity. Qed.

Lemma preserves_raise {A} e : preserves R (@mraise S A e).
Proof. intros s r s' [= <- <-]. reflexivity. Qed.

Lemma preserves_lift {A} (x : result A) : preserves R (mlift x).
Proof. intros s r s' [= <- <-]. reflexivity. Qed.

Lemma preserves_get : preserves R (@mget S).
Proof. intros s r s' [= <- <-]. reflexivity. Qed.

Lemma preserves_modify f : (∀ s, R s (f s)) → preserves R (mmodify f).
Proof. intros Hf s r s' [= <- <-]. apply Hf. Qed.

Lemma preserves_bind {A B} (m : M S A) (k : A → M S B) :
  preserves R m → (∀ a, preserves R (k a)) → preserves R (mbind m k).
Proof.
  intros Hm Hk s r s'. unfold mbind.
  destruct (m s) as [[a|e] s1] eqn:Hms.
  - intros Hks. etrans; [by eapply Hm|by eapply Hk].
  - intros [= <- <-]. by eapply Hm.
Qed.

Lemma preserves_try {A} (m : M S A) (h : exn → M S A) :
  preserves R m → (∀ e, preserves R (h e)) → preserves R (mtry m h).
Proof.
  intros Hm Hh s r s'. unfold mtry.
  destruct (m s) as [[a|e] s1] eqn:Hms.
  - intros [= <- <-]. by eapply Hm.
  - intros Hhs. etrans; [by eapply Hm|by eapply Hh].
Qed.

Lemma preserves_for {X} (xs : list X) (body : X → M S unit) :
  (∀ x, preserves R (body x)) → preserves R (mfor xs body).
Proof.
  intros Hb. induction xs as [|x xs IH]; simpl.
  - apply preserves_ret.
  - apply preserves_bind; [apply Hb|by intros _].
Qed.

End preserves.

(** ** The loop over the events *)

Section events_facts.
Context `{DsTypes} `{!DsElec} `{!DsIO}.

Global Instance files_elsewhere_preorder path : PreOrder (files_elsewhere path).
Proof.
  split.
  - by intros w p Hp.
  - intros w1 w2 w3 H12 H23 p Hp. by rewrite H23, H12.
Qed.

Global Instance pass_frame_preorder path : PreOrder (pass_frame path).
Proof.
  split.
  - intros w. unfold pass_frame. by repeat split.
  - intros w1 w2 w3 (?&?&?&?&?&?) (?&?&?&?&?&?). unfold pass_frame.
    repeat split; try congruence; [by etrans|auto].
Qed.

Lemma on_log_same (w : world) : on_log (λ _, w_log w) w = w.
Proof. by destruct w. Qed.

Lemma pass_frame_on_log path f w : pass_frame path w (on_log f w).
Proof. unfold pass_frame. by repeat split. Qed.

Lemma pass_frame_append path out w :
  pass_frame path w (on_files (append_event path out) w).
Proof.
  unfold pass_frame, files_elsewhere, append_event. simpl. repeat split; try done.
  - intros p Hp. by rewrite lookup_alter_ne.
  - intros [f Hf]. rewrite lookup_alter_eq, Hf. by eexists.
Qed.

Lemma call_process_event_frame path i ev out :
  preserves (pass_frame path) (call_process_event i ev out).
Proof.
  intros w r w'. unfold call_process_event.
  destruct (process_event _ _ _ _) as [r0 st]. intros [= _ <-].
  apply pass_frame_on_log.
Qed.

Lemma event_body_frame fin fout i ev n :
  preserves (pass_frame (wr_path fout)) (event_body fin fout i ev n).
Proof.
  unfold event_body.
  apply preserves_bind; [apply _|apply preserves_get; apply _|intros w].
  apply preserves_bind; [apply _|apply preserves_lift; apply _|intros shifted].
  apply preserves_bind; [apply _|apply call_process_event_frame|intros r].
  destruct (fst r).
  - apply preserves_bind; [apply _| |intros _; apply preserves_ret; apply _].
    apply preserves_modify. intros s. apply pass_frame_append.
  - apply preserves_ret; apply _.
Qed.

Lemma events_iter_frame fin fout evs i n :
  preserves (pass_frame (wr_path fout)) (events_iter fin fout i evs n).
Proof.
  revert i n. induction evs as [|ev evs IH]; intros i n; simpl.
  - apply preserves_ret; apply _.
  - apply preserves_bind; [apply _|apply event_body_frame|intros v; apply IH].
Qed.

Lemma events_loop_frame fin fout :
  preserves (pass_frame (wr_path fout)) (events_loop fin fout).
Proof.
  unfold events_loop.
  apply preserves_bind; [apply _|apply events_iter_frame|intros v].
  destruct (in_fail _); [apply preserves_raise|apply preserves_ret]; apply _.
Qed.

(** one event of the loop, case by case *)
Lemma event_body_cases fin fout i ev n w :
  match add_offset (w_cfg w !! "daq.offset") (ev_veto_pe ev) with
  | Raise e => event_body fin fout i ev n w = (Raise e, w)
  | Ok shifted =>
      let run := process_event (w_cfg w) i (MkEvent shifted (Some shifted))
                   (MkPstate (create_empty_event (in_header (rd_file fin)))
                             (w_log w) [] [] None) in
      let w1 := on_log (λ _, ps_log (snd run)) w in
      event_body fin fout i ev n w =
        match fst run with
        | Ok true =>
            (Ok (S n), on_files (append_event (wr_path fout) (ps_out (snd run))) w1)
        | Ok false => (Ok n, w1)
        | Raise e => (Raise e, w1)
        end
  end.
Proof.
  unfold event_body, call_process_event. munfold. simpl.
  destruct (add_offset _ _) as [shifted|e]; simpl; [|done].
  destruct (process_event _ _ _ _) as [[[|]|e] st]; simpl; done.
Qed.

Lemma events_iter_app fin fout evs1 evs2 i n w :
  events_iter fin fout i (evs1 ++ evs2) n w =
  match events_iter fin fout i evs1 n w with
  | (Ok v, w1) => events_iter fin fout (i + length evs1) evs2 v w1
  | (Raise e, w1) => (Raise e, w1)
  end.
Proof.
  revert i n w. induction evs1 as [|ev evs1 IH]; intros i n w; simpl.
  - unfold mret. by rewrite Nat.add_0_r.
  - unfold mbind.
    destruct (event_body fin fout i ev n w) as [[v|e] w1]; [|done].
    rewrite IH. by replace (i + S (length evs1)) with (S i + length evs1) by lia.
Qed.

End events_facts.

(** ** One sweep value *)

Section sweep_facts.
Context `{DsTypes} `{!DsElec} `{!DsIO} `{PyText} `{Units}.

Lemma preserves_bind_ret {S A B} (R : S → S → Prop) `{!PreOrder R} (P : A → Prop)
    (m : M S A) (k : A → M S B) :
  (∀ s a s', m s = (Ok a, s') → P a) →
  preserves R m → (∀ a, P a → preserves R (k a)) → preserves R (mbind m k).
Proof.
  intros HP Hm Hk s r s'. unfold mbind.
  destruct (m s) as [[a|e] s1] eqn:Hms.
  - intros Hks. etrans; [by eapply Hm|]. eapply Hk; [by eapply HP|done].
  - intros [= <- <-]. by eapply Hm.
Qed.

Lemma fails_before_gates_raise cfg a veto e :
  fails_before_gates cfg a e → before_gates cfg (MkEvent veto (Some a)) = Raise e.
Proof.
  unfold before_gates. simpl.
  intros [Hf|[(tg & Hf & Hn)|(tg & noisy & Hf & Hn & Hj)]]; rewrite Hf; [done|..].
  - by rewrite Hn.
  - by rewrite Hn, Hj.
Qed.

(** what [open_pass] returns and leaves behind *)
Lemma open_pass_result input_path output_base section param opts value w fin fout w1 :
  open_pass input_path output_base section param opts value w = (Ok (fin, fout), w1) →
  let path := Path_str (output_path_of output_base section param value) in
  read_file input_path opts = Ok (rd_file fin) ∧
  rd_id fin = w_next w ∧ wr_id fout = S (w_next w) ∧ wr_path fout = path ∧
  w_open w1 = {[ S (w_next w) ]} ∪ ({[ w_next w ]} ∪ w_open w) ∧
  w_files w1 = <[ path := MkSlice (in_header (rd_file fin)) [] ]> (w_files w) ∧
  w_log w1 = w_log w ++ [InfoProcessing section param value].
Proof.
  unfold open_pass, in_cfg, open_reader, open_writer. munfold.
  destruct (update_config_parameter section param value (w_cfg w)) as [[[]|e] c];
    simpl; [|done].
  destruct (read_file input_path opts) as [f|e]; simpl; [|done].
  intros [= <- <- <-]. simpl. by repeat split.
Qed.

Lemma open_pass_frame input_path output_base section param opts value :
  preserves (files_elsewhere (Path_str (output_path_of output_base section param value)))
            (open_pass input_path output_base section param opts value).
Proof.
  intros w r w'. unfold open_pass, in_cfg, open_reader, open_writer. munfold.
  destruct (update_config_parameter section param value (w_cfg w)) as [[[]|e] c];
    simpl; [|by intros [= <- <-]].
  destruct (read_file input_path opts) as [f|e]; simpl; [|by intros [= <- <-]].
  intros [= <- <-] p Hp. simpl. by rewrite lookup_insert_ne.
Qed.

Lemma close_pass_frame output_base section param value fin fout v :
  preserves (files_elsewhere (Path_str (output_path_of output_base section param value)))
            (close_pass output_base section param value fin fout v).
Proof.
  intros w r w'. unfold close_pass, close_handle. munfold. simpl.
  destruct (0 <? v); simpl; [by intros [= <- <-]|].
  destruct (decide _); simpl; intros [= <- <-]; [|done].
  intros p Hp. simpl. by rewrite lookup_delete_ne.
Qed.

Lemma pass_frame_elsewhere path (w w' : world) :
  pass_frame path w w' → files_elsewhere path w w'.
Proof. by intros (?&?&?&?&?&?). Qed.

(** one sweep value touches no file but its own *)
Lemma sweep_value_frame input_path output_base section param opts value :
  preserves (files_elsewhere (Path_str (output_path_of output_base section param value)))
            (sweep_value input_path output_base section param opts value).
Proof.
  unfold sweep_value, sweep_value_try.
  apply preserves_try; [apply _| |].
  - apply (preserves_bind_ret _
      (λ ff, wr_path (snd ff) = Path_str (output_path_of output_base section param value))).
    + intros s [fin fout] s' Ho. by apply open_pass_result in Ho as (?&?&?&?&?).
    + apply open_pass_frame.
    + intros [fin fout] Hpath. simpl in *.
      apply preserves_bind; [apply _| |intros v; apply close_pass_frame].
      intros s r s' Hl. rewrite <- Hpath.
      by eapply pass_frame_elsewhere, events_loop_frame.
  - intros e. apply preserves_modify. by intros s p Hp.
Qed.

Lemma sweep_value_returns input_path output_base section param opts value w :
  ∃ w', sweep_value input_path output_base section param opts value w = (Ok tt, w').
Proof.
  unfold sweep_value, mtry.
  destruct (sweep_value_try _ _ _ _ _ _ _) as [[[]|e] w1]; by eexists.
Qed.

(** the values of a sweep with other output paths leave the file at [path] *)
Lemma later_values_frame input_path output_base section param opts path values :
  Forall (λ v', Path_str (output_path_of output_base section param v') ≠ path) values →
  ∀ wa r wb,
    mfor values (sweep_value input_path output_base section param opts) wa = (r, wb) →
    w_files wb !! path = w_files wa !! path.
Proof.
  induction 1 as [|v' values Hv' Hne IH]; intros wa r wb; simpl.
  - by intros [= _ <-].
  - unfold mbind.
    destruct (sweep_value_returns input_path output_base section param opts v' wa)
      as [wc Hc]. rewrite Hc. intros Hm.
    rewrite (IH _ _ _ Hm).
    by apply (sweep_value_frame _ _ _ _ _ _ _ _ _ Hc).
Qed.

End sweep_facts.

(** ** The verdict of process_event and what the driver does with it *)

Section driver_claims.
Context `{DsTypes} `{!DsElec} `{!DsIO} `{PyText} `{Units}.

(** The test of line 94 is on the running lists of arrays: process_event
    returns true exactly when the lists of hit arrays and of ZLE arrays
    are both non-empty at the end, that is when a pass has completed, and
    false exactly when both are empty; the driver writes the output event
    and counts it when the answer is true, and leaves the files and the
    counter alone when it is false. *)
Theorem process_event_verdict cfg i ev st b st' :
  process_event cfg i ev st = (Ok b, st') →
  (b = true ↔ ps_hits st' ≠ [] ∧ ps_zles st' ≠ []) ∧
  (b = false ↔ ps_hits st' = [] ∧ ps_zles st' = []) ∧
  (∀ fin fout ev0 n w shifted,
     w_cfg w = cfg →
     add_offset (w_cfg w !! "daq.offset") (ev_veto_pe ev0) = Ok shifted →
     ev = MkEvent shifted (Some shifted) →
     st = MkPstate (create_empty_event (in_header (rd_file fin))) (w_log w) [] [] None →
     ∃ w', event_body fin fout i ev0 n w = (Ok (if b then S n else n), w') ∧
           w_files w' = if b then append_event (wr_path fout) (ps_out st') (w_files w)
                        else w_files w).
Proof.
  intros Hp.
  pose proof (process_event_inv (λ _ _, True) cfg i ev st (Ok b) st') as Hinv.
  simpl in Hinv. specialize (Hinv ltac:(done) I Hp).
  split; [|split].
  - destruct b; [by destruct Hinv as (_ & ? & ? & _)|].
    destruct Hinv as [-> ->]. split; [done|by intros [? _]].
  - destruct b; [|done].
    destruct Hinv as (_ & ? & ? & _). split; [done|]. by intros [? _].
  - intros fin fout ev0 n w shifted Hcfg Hoff -> ->.
    pose proof (event_body_cases fin fout i ev0 n w) as Hb.
    rewrite Hoff in Hb. simpl in Hb. rewrite Hcfg, Hp in Hb. simpl in Hb.
    destruct b; eexists; (split; [exact Hb|done]).
Qed.

(** an event without gates whose outside pass fails is answered false *)
Lemma process_event_nothing_collected cfg i ev st pe' ts gs e :
  before_gates cfg ev = Ok (pe', (ts, gs)) → zip ts gs = [] →
  (get_pes_outside_gates cfg pe' ts gs = Raise e) ∨
  (∃ pes, get_pes_outside_gates cfg pe' ts gs = Ok pes ∧
          find_effective_zles_hits cfg pes = Raise e) →
  ∃ st', process_event cfg i ev st = (Ok false, st').
Proof.
  unfold before_gates, process_event, collect, finish, outside_gates. munfold.
  destruct (ev_pe ev) as [a|]; simpl; [|done].
  destruct (find_waveform_gates cfg a) as [tg|]; simpl; [|done].
  destruct (add_noise_pes cfg a _) as [noisy|]; simpl; [|done].
  destruct (add_daq_jitter cfg noisy) as [p|]; simpl; [|done].
  intros [= -> ->]; simpl. intros ->; simpl.
  intros [Ho|(pes & Ho & He)]; rewrite Ho; simpl; [by eexists|].
  rewrite He. simpl. by eexists.
Qed.

(** C6: when the pass over the file of one sweep value completes with a
    counter of zero, the iteration removes the output file it created and
    logs the warning; with a counter above zero the file stays and the
    count is logged.  Both handles are closed, no other file changes, and
    the later values of the sweep leave the file as it is when their
    output paths differ. *)
Theorem empty_pass_removes_output input_path output_base section param opts value
    w fin fout w1 v w2 :
  open_pass input_path output_base section param opts value w = (Ok (fin, fout), w1) →
  events_loop fin fout w1 = (Ok v, w2) →
  let path := Path_str (output_path_of output_base section param value) in
  ∃ w',
    sweep_value input_path output_base section param opts value w = (Ok tt, w') ∧
    (rd_id fin ∉ w_open w') ∧ (wr_id fout ∉ w_open w') ∧
    (v = 0 → w_files w' !! path = None ∧
             w_log w' = w_log w2 ++ [WarnNoValidEvents section param value]) ∧
    (0 < v → is_Some (w_files w' !! path) ∧
             w_files w' = w_files w2 ∧
             w_log w' = w_log w2 ++ [InfoSaved path v]) ∧
    files_elsewhere path w w' ∧
    (∀ values r w'',
       Forall (λ v', Path_str (output_path_of output_base section param v') ≠ path)
              values →
       mfor values (sweep_value input_path output_base section param opts) w' = (r, w'') →
       w_files w'' !! path = w_files w' !! path).
Proof.
  intros Ho Hl path.
  pose proof (open_pass_result _ _ _ _ _ _ _ _ _ _ Ho)
    as (_ & Hrd & Hwr & Hpath & Hopen & Hfiles & _).
  fold path in Hpath, Hfiles.
  pose proof (events_loop_frame fin fout w1 (Ok v) w2 Hl)
    as (_ & _ & Hopen2 & _ & _ & Hkeep). rewrite Hpath in Hkeep.
  assert (is_Some (w_files w2 !! path)) as Hex.
  { apply Hkeep. rewrite Hfiles, lookup_insert_eq. by eexists. }
  destruct (sweep_value_returns input_path output_base section param opts value w)
    as [w' Hs].
  exists w'. split; [done|].
  pose proof (sweep_value_frame input_path output_base section param opts value
                w (Ok tt) w' Hs) as Hframe. fold path in Hframe.
  revert Hs. unfold sweep_value, sweep_value_try, mtry, mbind at 1.
  rewrite Ho. simpl. unfold mbind at 1. rewrite Hl.
  unfold close_pass, close_handle. fold path. munfold. simpl.
  destruct v as [|v]; simpl.
  - destruct (decide _) as [_|Hn]; [|done]. intros [= <-]. simpl.
    split; [rewrite !elem_of_difference, !elem_of_singleton; tauto|].
    split; [rewrite !elem_of_difference, !elem_of_singleton; tauto|].
    split; [by rewrite lookup_delete_eq|]. split; [lia|]. split; [done|].
    intros values r w'' Hne Hm.
    by rewrite (later_values_frame _ _ _ _ _ _ _ Hne _ _ _ Hm).
  - intros [= <-]. simpl.
    split; [rewrite !elem_of_difference, !elem_of_singleton; tauto|].
    split; [rewrite !elem_of_difference, !elem_of_singleton; tauto|].
    split; [done|]. split; [done|]. split; [done|].
    intros values r w'' Hne Hm.
    by rewrite (later_values_frame _ _ _ _ _ _ _ Hne _ _ _ Hm).
Qed.

End driver_claims.

(** ** An exception before the gates *)

Section early_failure.
Context `{DsTypes} `{!DsElec} `{!DsIO} `{PyText} `{Units}.

Lemma process_event_raises cfg i ev st e :
  before_gates cfg ev = Raise e →
  ∃ st', process_event cfg i ev st = (Raise e, st') ∧ ps_log st' = ps_log st.
Proof.
  intros Hb.
  destruct (collect_result (λ _ _, True) cfg i ev st) as (st' & Hc); [done..|].
  rewrite Hb in Hc. destruct Hc as [Hc Hlog].
  exists st'. split; [|done]. unfold process_event, mbind. by rewrite Hc.
Qed.

(** The state in which an exception of the first steps of process_event
    leaves one sweep value: the loop is left at the failing event and the
    handler of the sweep value logs the error. *)
Lemma pass_failure input_path output_base section param opts value
    w fin fout w1 evs1 ev0 rest v w2 shifted e :
  open_pass input_path output_base section param opts value w = (Ok (fin, fout), w1) →
  in_events (rd_file fin) = evs1 ++ ev0 :: rest →
  events_iter fin fout 0 evs1 0 w1 = (Ok v, w2) →
  add_offset (w_cfg w2 !! "daq.offset") (ev_veto_pe ev0) = Ok shifted →
  fails_before_gates (w_cfg w2) shifted e →
  events_loop fin fout w1 = (Raise e, w2) ∧
  sweep_value input_path output_base section param opts value w =
    (Ok tt, on_log (λ l, l ++ [ErrorSweepValue section param value e]) w2).
Proof.
  intros Ho Hev Hit Hoff Hfail.
  assert (events_loop fin fout w1 = (Raise e, w2)) as Hl.
  { unfold events_loop, mbind. rewrite Hev, events_iter_app, Hit. simpl.
    unfold mbind.
    pose proof (event_body_cases fin fout (length evs1) ev0 v w2) as Hb.
    rewrite Hoff in Hb. simpl in Hb.
    destruct (process_event_raises (w_cfg w2) (length evs1)
                (MkEvent shifted (Some shifted))
                (MkPstate (create_empty_event (in_header (rd_file fin)))
                          (w_log w2) [] [] None) e) as (st' & Hp & Hlog).
    { by apply fails_before_gates_raise. }
    rewrite Hp in Hb. simpl in Hb, Hlog. rewrite Hlog, on_log_same in Hb.
    by rewrite Hb. }
  split; [done|].
  unfold sweep_value, sweep_value_try, mtry, mbind. rewrite Ho. simpl.
  by rewrite Hl.
Qed.

(** C10: when gate discovery, noise injection or jitter raises an
    exception for an event, process_event raises it instead of returning a
    boolean; the loop over the events ends there, with the world as the
    events before left it, whatever events follow; the handler of the sweep
    value logs the error and the driver goes on with the next value. *)
Theorem failure_before_gates_abandons_pass input_path output_base section param
    opts value w fin fout w1 evs1 ev0 rest v w2 shifted e :
  open_pass input_path output_base section param opts value w = (Ok (fin, fout), w1) →
  in_events (rd_file fin) = evs1 ++ ev0 :: rest →
  events_iter fin fout 0 evs1 0 w1 = (Ok v, w2) →
  add_offset (w_cfg w2 !! "daq.offset") (ev_veto_pe ev0) = Ok shifted →
  fails_before_gates (w_cfg w2) shifted e →
  let w' := on_log (λ l, l ++ [ErrorSweepValue section param value e]) w2 in
  (∀ st, ∃ st',
     process_event (w_cfg w2) (length evs1) (MkEvent shifted (Some shifted)) st
       = (Raise e, st') ∧ ps_log st' = ps_log st) ∧
  events_loop fin fout w1 = (Raise e, w2) ∧
  sweep_value input_path output_base section param opts value w = (Ok tt, w') ∧
  (∀ values,
     mfor (value :: values) (sweep_value input_path output_base section param opts) w
     = mfor values (sweep_value input_path output_base section param opts) w').
Proof.
  intros Ho Hev Hit Hoff Hfail w'.
  destruct (pass_failure _ _ _ _ _ _ _ _ _ _ _ _ _ _ _ _ _ Ho Hev Hit Hoff Hfail)
    as [Hl Hs].
  split; [|split; [done|split; [done|]]].
  - intros st. apply process_event_raises. by apply fails_before_gates_raise.
  - intros values. simpl. unfold mbind. by rewrite Hs.
Qed.

(** The handles of a sweep value that ends in this way stay open: the
    handler does not close them. *)
Lemma pass_failure_leaks input_path output_base section param opts value
    w fin fout w1 evs1 ev0 rest v w2 shifted e w' :
  open_pass input_path output_base section param opts value w = (Ok (fin, fout), w1) →
  in_events (rd_file fin) = evs1 ++ ev0 :: rest →
  events_iter fin fout 0 evs1 0 w1 = (Ok v, w2) →
  add_offset (w_cfg w2 !! "daq.offset") (ev_veto_pe ev0) = Ok shifted →
  fails_before_gates (w_cfg w2) shifted e →
  sweep_value input_path output_base section param opts value w = (Ok tt, w') →
  rd_id fin ∈ w_open w' ∧ wr_id fout ∈ w_open w'.
Proof.
  intros Ho Hev Hit Hoff Hfail Hs.
  destruct (pass_failure _ _ _ _ _ _ _ _ _ _ _ _ _ _ _ _ _ Ho Hev Hit Hoff Hfail)
    as [_ Hs'].
  rewrite Hs' in Hs. injection Hs as <-. simpl.
  pose proof (open_pass_result _ _ _ _ _ _ _ _ _ _ Ho)
    as (_ & Hrd & Hwr & _ & Hopen & _).
  pose proof (events_iter_frame fin fout evs1 0 0 w1 (Ok v) w2 Hit)
    as (_ & _ & Hopen2 & _).
  rewrite Hopen2, Hopen, Hrd, Hwr.
  rewrite !elem_of_union, !elem_of_singleton. tauto.
Qed.

End early_failure.

(** ** The configuration table *)

Section config_facts.
Context `{PyText} `{Units}.

Ltac decide_names :=
  repeat match goal with
         | |- context [String.eqb ?a ?b] =>
             destruct (String.eqb_spec a b); subst; simpl; try discriminate
         end.

(** C9: update_config_parameter is the fixed table of ten known
    (section, parameter) pairs: a known pair sets exactly the key
    section.parameter to the value converted to the target type of the
    pair and multiplied by its unit scale; any other pair leaves the
    configuration as it is. *)
Theorem update_config_parameter_is_table section param value cfg :
  update_config_parameter section param value cfg
  = update_config_by_table section param value cfg.
Proof.
  unfold update_config_parameter, update_config_by_table, among, cfg_set.
  munfold. simpl.
  decide_names; try reflexivity;
    try (destruct (py_float value); reflexivity);
    try (destruct (py_int value); reflexivity).
Qed.

End config_facts.

(** ** The sweep option that main honours *)

Section main_facts.
Context `{DsTypes} `{!DsElec} `{!DsIO} `{PyText} `{Units}.

(** C5, amended: main runs exactly one sweep.  Of the sweep options given
    on the command line it honours the first in the order in which
    parse_args declares them (snr, sampling, jitter, dcr, tau,
    pre_threshold, post_threshold, pre_trigger, post_trigger,
    noise_spectrum), whatever else was given; without any it sweeps the
    configured daq.snr alone. *)
Theorem main_honours_first_declared c w :
  match first_supplied sweep_options (cl_sweeps c) with
  | Some (name, s) =>
      ∃ section param,
        dict_get name param_mapping = Some (section, param) ∧
        main (parse_args c) w =
          (let* values := mlift (sweep_values param (PStr s)) in
           logw (InfoSweeping section param values) >>>
           process_with_params (cl_input c) (cl_output c) section param values []) w
  | None =>
      main (parse_args c) w =
        process_with_params (cl_input c) (cl_output c) "daq" "snr"
          [from_option id PNone (w_cfg w !! "daq.snr")] [] w
  end.
Proof.
  unfold main, parse_args, sweep_options. simpl.
  unfold mbind at 1 2 3 4. simpl.
  repeat match goal with
         | |- context [cl_sweeps c !! ?k] =>
             destruct (cl_sweeps c !! k); simpl;
               [eexists _, _; split; reflexivity|]
         end.
  destruct (cl_start c), (cl_stop c); reflexivity.
Qed.

End main_facts.

(** C5 as stated fails: with --noise-spectrum and --dcr both given, the
    order of the parameter mapping would pick noise_spectrum, and main
    sweeps sipm.dcr and never sets daq.noise_spectrum. *)
Lemma main_ignores_mapping_order :
  let c := MkCommandLine "in.fil" "out/run.slc" None None
             {[ "noise_spectrum" := "a.dat"; "dcr" := "5" ]} in
  let w' := snd (Demo.main_at Demo.elec_ok c) in
  first_supplied mapping_order (cl_sweeps c) = Some ("noise_spectrum", "a.dat") ∧
  head (w_log w') = Some (InfoSweeping "sipm" "dcr" [PFloat (float_of_Z 5)]) ∧
  w_cfg w' !! "sipm.dcr" = Some (PFloat (float_of_Z 5)) ∧
  w_cfg w' !! "daq.noise_spectrum" = None.
Proof. vm_compute. repeat split; reflexivity. Qed.

(** ** Paths *)

Lemma append_nil b : "" +:+ b = b.
Proof. reflexivity. Qed.

Lemma append_cons x a b : String x a +:+ b = String x (a +:+ b).
Proof. reflexivity. Qed.

Lemma append_empty_r s : s +:+ "" = s.
Proof. induction s as [|x s IH]; [done|]. by rewrite append_cons, IH. Qed.

Lemma occurs_app c a b : occurs c (a +:+ b) = occurs c a || occurs c b.
Proof. induction a as [|x a IH]; simpl; [done|]. by rewrite IH, orb_assoc. Qed.

Lemma occurs_substring c s n m : occurs c s = false → occurs c (String.substring n m s) = false.
Proof.
  revert n m. induction s as [|x s IH]; intros n m Hs.
  - by destruct n, m.
  - simpl in Hs. apply orb_false_iff in Hs as [Hx Hs].
    destruct n, m; simpl; rewrite ?Hx; simpl; auto.
Qed.

Lemma substring_all s : String.substring 0 (String.length s) s = s.
Proof. induction s as [|x s IH]; simpl; [done|]. by rewrite IH. Qed.

Lemma substring_split s i :
  i ≤ String.length s →
  String.substring 0 i s +:+ String.substring i (String.length s - i) s = s.
Proof.
  revert i. induction s as [|x s IH]; intros i Hi; simpl in *.
  - by destruct i.
  - destruct i as [|i]; simpl.
    + by rewrite substring_all.
    + rewrite append_cons. f_equal. apply IH. lia.
Qed.

Lemma split_components sep s : Forall (λ x, occurs sep x = false) (split sep s).
Proof.
  induction s as [|c s IH]; simpl; [by repeat constructor|].
  destruct (Ascii.eqb c sep) eqn:Hc.
  - by constructor.
  - destruct (split sep s) as [|first others].
    + repeat constructor. simpl. by rewrite Hc.
    + inversion IH; subst. constructor; [|done]. simpl. by rewrite Hc.
Qed.

Lemma split_no_sep sep s : occurs sep s = false → split sep s = [s].
Proof.
  induction s as [|c s IH]; simpl; [done|].
  intros Hs. apply orb_false_iff in Hs as [Hc Hs]. by rewrite Hc, (IH Hs).
Qed.

Lemma no_slash_prefix s p : no_slash s → String.prefix (String "/" p) s = false.
Proof.
  unfold no_slash. destruct s as [|c s]; [done|].
  intros Hs. simpl in Hs. apply orb_false_iff in Hs as [Hc _].
  cbn [String.prefix]. destruct (ascii_dec "/" c) as [<-|]; [|done].
  by rewrite Ascii.eqb_refl in Hc.
Qed.

Lemma Path_of_string_name s :
  no_slash s → s ≠ "" → s ≠ "." → Path_of_string s = MkPath "" [s].
Proof.
  intros Hs He Hd. unfold Path_of_string.
  rewrite !no_slash_prefix by done. simpl.
  rewrite (split_no_sep "/" s Hs). simpl. unfold path_component.
  apply String.eqb_neq in He, Hd. by rewrite He, Hd.
Qed.

Lemma Path_name_no_slash s : no_slash (Path_name (Path_of_string s)).
Proof.
  unfold Path_name, Path_of_string, no_slash. simpl.
  pose proof (split_components "/" s) as Hall.
  induction Hall as [|x l Hx Hall IH]; simpl; [done|].
  destruct (path_component x); simpl; [|done].
  destruct (List.filter path_component l) eqn:Hf; [done|]. exact IH.
Qed.

Lemma suffix_index_le name i : suffix_index name = Some i → i ≤ String.length name.
Proof.
  unfold suffix_index. destruct (rfind _ _ _) as [j|]; [|done].
  destruct (_ && _) eqn:Hb; [|done]. intros [= <-].
  apply andb_true_iff in Hb as [_ Hb]. apply Nat.ltb_lt in Hb. lia.
Qed.

Lemma Path_stem_suffix p : Path_name p = Path_stem p +:+ Path_suffix p.
Proof.
  unfold Path_stem, Path_suffix.
  destruct (suffix_index (Path_name p)) as [i|] eqn:Hi.
  - symmetry. by apply substring_split, suffix_index_le.
  - by rewrite append_empty_r.
Qed.

Lemma Path_stem_no_slash s : no_slash (Path_stem (Path_of_string s)).
Proof.
  unfold Path_stem. destruct (suffix_index _); [|apply Path_name_no_slash].
  apply occurs_substring, Path_name_no_slash.
Qed.

Lemma Path_suffix_no_slash s : no_slash (Path_suffix (Path_of_string s)).
Proof.
  unfold Path_suffix. destruct (suffix_index _); [|done].
  apply occurs_substring, Path_name_no_slash.
Qed.

Lemma underscore_name a b : a +:+ String "_" b ≠ "" ∧ a +:+ String "_" b ≠ ".".
Proof.
  destruct a as [|c [|d a]]; rewrite ?append_cons, ?append_nil; split; congruence.
Qed.

(** ** The output path of a sweep value *)

Section output_paths.
Context `{DsTypes} `{!DsElec} `{!DsIO} `{PyText} `{Units}.

Lemma output_name_no_slash stem section param value extension :
  no_slash stem → no_slash section → no_slash param → no_slash (py_str value) →
  no_slash extension →
  no_slash (output_name stem section param value extension).
Proof.
  unfold no_slash, output_name. intros Hb Hs Hp Hv He.
  rewrite !occurs_app, Hb, Hs, Hp, Hv, He. reflexivity.
Qed.

Lemma output_path_parts output_base section param value :
  no_slash section → no_slash param → no_slash (py_str value) →
  let base := Path_of_string output_base in
  output_path_of output_base section param value =
    MkPath (path_root base)
           (removelast (path_parts base) ++
            [output_name (Path_stem base) section param value (Path_suffix base)]).
Proof.
  intros Hs Hp Hv base. unfold output_path_of, Path_join. fold base.
  destruct (underscore_name (Path_stem base)
              (section +:+ "_" +:+ param +:+ "_" +:+ py_str value +:+ Path_suffix base))
    as [Hne Hnd].
  rewrite Path_of_string_name; [done| |exact Hne|exact Hnd].
  apply output_name_no_slash;
    [apply Path_stem_no_slash|done|done|done|apply Path_suffix_no_slash].
Qed.

(** C4, amended: the output path of a sweep value has the directory of the
    output base and, as its name, the name of the output base with
    _{section}_{parameter}_{value} inserted before the extension, the value
    written as Python writes it; the writer of the value is opened at that
    path.  The values of a command line are floats: for --snr 5,10,15 the
    three names end in _daq_snr_5.0, _daq_snr_10.0 and _daq_snr_15.0
    before the extension. *)
Theorem output_path_derivation output_base section param value :
  no_slash section → no_slash param → no_slash (py_str value) →
  let base := Path_of_string output_base in
  let out := output_path_of output_base section param value in
  Path_name base = Path_stem base +:+ Path_suffix base ∧
  Path_parent out = Path_parent base ∧
  Path_name out = Path_stem base +:+ "_" +:+ section +:+ "_" +:+ param +:+ "_"
                    +:+ py_str value +:+ Path_suffix base ∧
  (∀ input_path opts w fin fout w1,
     open_pass input_path output_base section param opts value w = (Ok (fin, fout), w1) →
     wr_path fout = Path_str out) ∧
  sweep_values "snr" (PStr "5,10,15")
    = Ok [PFloat (float_of_Z 5); PFloat (float_of_Z 10); PFloat (float_of_Z 15)] ∧
  (λ v, Path_name (output_path_of output_base "daq" "snr" v))
    <$> [PFloat (float_of_Z 5); PFloat (float_of_Z 10); PFloat (float_of_Z 15)]
    = [Path_stem base +:+ "_daq_snr_5.0" +:+ Path_suffix base;
       Path_stem base +:+ "_daq_snr_10.0" +:+ Path_suffix base;
       Path_stem base +:+ "_daq_snr_15.0" +:+ Path_suffix base].
Proof.
  intros Hs Hp Hv base out.
  split; [apply Path_stem_suffix|].
  unfold out. rewrite output_path_parts by done. fold base.
  split; [|split; [|split; [|split]]].
  - unfold Path_parent. simpl. by rewrite removelast_last.
  - unfold Path_name. simpl. by rewrite last_last.
  - intros input_path opts w fin fout w1 Ho.
    apply open_pass_result in Ho as (_ & _ & _ & Hpath & _).
    rewrite Hpath. unfold out. by rewrite output_path_parts.
  - reflexivity.
  - simpl. rewrite !output_path_parts by reflexivity. fold base.
    unfold Path_name, output_name. simpl. rewrite !last_last.
    replace (py_str (PFloat (float_of_Z 5))) with "5.0" by (vm_compute; reflexivity).
    replace (py_str (PFloat (float_of_Z 10))) with "10.0" by (vm_compute; reflexivity).
    replace (py_str (PFloat (float_of_Z 15))) with "15.0" by (vm_compute; reflexivity).
    reflexivity.
Qed.

End output_paths.

(** A value with a slash is more than one component of the path: then the
    text after the last slash, with the extension, is the name. *)
Lemma slash_value_splits_the_name :
  let out := @output_path_of Demo.text "out/run.slc" "daq" "noise_spectrum"
               (PStr "spectra/white.dat") in
  Path_str out = "out/run_daq_noise_spectrum_spectra/white.dat.slc" ∧
  Path_name out = "white.dat.slc".
Proof. vm_compute. by split. Qed.

(** C4 as stated fails: the sweep --snr 5,10,15 over in.fil with the output
    base out/run.slc writes out/run_daq_snr_5.0.slc, out/run_daq_snr_10.0.slc
    and out/run_daq_snr_15.0.slc, and no file out/run_daq_snr_5.slc. *)
Lemma cli_sweep_names_carry_float_text :
  let c := MkCommandLine "in.fil" "out/run.slc" None None {[ "snr" := "5,10,15" ]} in
  let w' := snd (Demo.main_at Demo.elec_ok c) in
  is_Some (w_files w' !! "out/run_daq_snr_5.0.slc") ∧
  is_Some (w_files w' !! "out/run_daq_snr_10.0.slc") ∧
  is_Some (w_files w' !! "out/run_daq_snr_15.0.slc") ∧
  size (w_files w') = 3 ∧
  w_files w' !! "out/run_daq_snr_5.slc" = None.
Proof. vm_compute. repeat split; by eexists. Qed.

(** ** The program on a small detector *)

(** C1, on the code: a gate whose summation fails with "ZLE interval too
    short" leaves nothing in the running lists.  Hit extraction, which
    would return two hits for the gate, is not run: the event ends with the
    one ZLE record and the one hit of the photoelectron outside the gate,
    and the only trace of the gate is the warning. *)
Lemma zle_too_short_drops_the_gate :
  let run := Demo.process_at Demo.elec_short Demo.ev3 in
  (∃ h1 h2, Demo.gate_hits Demo.elec_short = Ok [h1; h2]) ∧
  Demo.gate_at Demo.elec_short = (Ok tt, with_log (WarnZleTooShort 0) (Demo.start [])) ∧
  fst run = Ok true ∧
  ps_log (snd run) = [WarnZleTooShort 0] ∧
  length <$> ps_zles (snd run) = [1] ∧
  length <$> ps_hits (snd run) = [1] ∧
  length <$> out_hits (ps_out (snd run)) = Some 1.
Proof. vm_compute. split; [by eexists _, _|]. repeat split. Qed.

(** With a summation that succeeds the same event keeps the two hits of
    the gate as well. *)
Lemma summed_gate_keeps_its_hits :
  let run := Demo.process_at Demo.elec_ok Demo.ev3 in
  fst run = Ok true ∧ length <$> ps_hits (snd run) = [2; 1] ∧
  length <$> out_hits (ps_out (snd run)) = Some 3.
Proof. vm_compute. repeat split. Qed.

(** C7, on the code: when process_event raises for the first event of the
    file, the iteration of the sweep value ends in its handler with the
    reader (handle 0) and the writer (handle 1) still open; an iteration
    that completes leaves no handle open. *)
Lemma failed_pass_leaves_handles_open :
  let failed := Demo.sweep_at Demo.elec_broken (PFloat (Demo.fl 5)) in
  let completed := Demo.sweep_at Demo.elec_ok (PFloat (Demo.fl 5)) in
  fst failed = Ok tt ∧
  w_log (snd failed) =
    [InfoProcessing "daq" "snr" (PFloat (Demo.fl 5));
     ErrorSweepValue "daq" "snr" (PFloat (Demo.fl 5)) Demo.broken] ∧
  w_open (snd failed) = {[ 0; 1 ]} ∧
  w_open (snd completed) = ∅.
Proof. vm_compute. repeat split. Qed.

(** C2, on the code: the test of line 94 counts the arrays in the running
    lists, not the records in them.  For an event whose only gate holds no
    ZLE interval, hence no hit, and whose pass outside the gates fails,
    process_event answers true although no ZLE and no hit record was
    found; the driver writes the event, with empty [zles] and [hits], and
    counts it among the valid events of the file. *)
Lemma verdict_true_without_records :
  let run := Demo.process_at Scenarios.elec_empty_gate Demo.ev3 in
  let pass := Demo.sweep_at Scenarios.elec_empty_gate (PFloat (Demo.fl 5)) in
  @find_zle_intervals Demo.types Scenarios.elec_empty_gate ∅ Demo.gate_wfs (Demo.fl 0)
  = Ok [] ∧
  fst run = Ok true ∧
  ps_log (snd run) = [WarnOutsideError 0 Demo.broken] ∧
  ps_zles (snd run) = [[]] ∧ ps_hits (snd run) = [[]] ∧
  out_zles (ps_out (snd run)) = Some [] ∧ out_hits (ps_out (snd run)) = Some [] ∧
  fst pass = Ok tt ∧
  sf_events <$> (@w_files Demo.types (snd pass) !! "out/run_daq_snr_5.0.slc")
  = Some [ps_out (snd run); ps_out (snd run)] ∧
  last (w_log (snd pass)) = Some (InfoSaved "out/run_daq_snr_5.0.slc" 2).
Proof. vm_compute. repeat split. Qed.

(** The same holds without any gate: an event without photoelectrons,
    for which the pass outside the gates returns two arrays without any
    record, is answered true. *)
Lemma arrays_without_records_count :
  let run := Demo.process_at (Demo.elec Demo.no_gate (λ _, None) None)
               (MkEvent [] (Some [])) in
  fst run = Ok true ∧ ps_hits (snd run) = [[]] ∧ ps_zles (snd run) = [[]] ∧
  out_hits (ps_out (snd run)) = Some [] ∧ out_zles (ps_out (snd run)) = Some [].
Proof. vm_compute. repeat split. Qed.

(** dselec as modelled in [Demo] numbers the hits of a pass from zero *)
Lemma demo_local_ids (f : nat → @hit Demo.types) {X} (l : list X) n :
  (∀ j, hit_zle_id (f j) = Z.of_nat j) → length l = n →
  Forall (λ x, (0 ≤ hit_zle_id x < Z.of_nat n)%Z) (imap (λ j _, f j) l).
Proof.
  intros Hf Hn. apply Forall_lookup. intros i x Hx.
  rewrite list_lookup_imap in Hx.
  destruct (l !! i) as [y|] eqn:Hy; simplify_eq/=.
  apply lookup_lt_Some in Hy. rewrite Hf. lia.
Qed.

Lemma demo_contract gates sum_fail outside_fail :
  @zle_id_contract Demo.types (Demo.elec gates sum_fail outside_fail).
Proof.
  intros z h [(cfg & wfs & t & Hh)|(cfg & pes & Hzh)]; simpl in *.
  - injection Hh as <-. unfold local_ids. apply Forall_reverse.
    by apply demo_local_ids.
  - destruct outside_fail; [done|]. injection Hzh as <- <-.
    unfold local_ids. apply demo_local_ids; [done|].
    by rewrite !length_fmap.
Qed.

(** ** The theorems at concrete inputs *)

Lemma process_event_verdict_witness :
  let st' := snd (Demo.process_at Demo.elec_ok Demo.ev3) in
  Demo.process_at Demo.elec_ok Demo.ev3 = (Ok true, st') ∧
  (true = true ↔ ps_hits st' ≠ [] ∧ ps_zles st' ≠ []).
Proof.
  assert (Demo.process_at Demo.elec_ok Demo.ev3
          = (Ok true, snd (Demo.process_at Demo.elec_ok Demo.ev3))) as Hrun
    by (vm_compute; reflexivity).
  split; [exact Hrun|].
  exact (proj1 (@process_event_verdict Demo.types Demo.elec_ok Demo.io
                  ∅ 0 Demo.ev3 (Demo.start []) true _ Hrun)).
Defined.

Lemma process_event_numbers_and_sorts_hits_witness :
  let st' := snd (Demo.process_at Demo.elec_ok Demo.ev3) in
  Demo.process_at Demo.elec_ok Demo.ev3 = (Ok true, st') ∧
  @ids_disjoint Demo.types (ps_hits st').
Proof.
  assert (Demo.process_at Demo.elec_ok Demo.ev3
          = (Ok true, snd (Demo.process_at Demo.elec_ok Demo.ev3))) as Hrun
    by (vm_compute; reflexivity).
  split; [exact Hrun|].
  destruct (@process_event_numbers_and_sorts_hits Demo.types Demo.elec_ok
              ∅ 0 Demo.ev3 (Demo.start []) _
              (demo_contract _ _ _) Hrun)
    as (zs & hs & gh & _ & _ & _ & _ & Hd & _).
  exact Hd.
Defined.


Lemma empty_pass_removes_output_witness :
  Demo.opened Demo.elec_silent = (Ok (Demo.fin0, Demo.fout0), snd (Demo.opened Demo.elec_silent)) ∧
  Demo.looped Demo.elec_silent = (Ok 0, snd (Demo.looped Demo.elec_silent)) ∧
  ∃ w', Demo.sweep_at Demo.elec_silent (PFloat (Demo.fl 5)) = (Ok tt, w') ∧
        w_files w' !! "out/run_daq_snr_5.0.slc" = None.
Proof.
  assert (Demo.opened Demo.elec_silent
          = (Ok (Demo.fin0, Demo.fout0), snd (Demo.opened Demo.elec_silent))) as Ho
    by (vm_compute; reflexivity).
  assert (Demo.looped Demo.elec_silent = (Ok 0, snd (Demo.looped Demo.elec_silent)))
    as Hl by (vm_compute; reflexivity).
  split; [exact Ho|]. split; [exact Hl|].
  destruct (@empty_pass_removes_output Demo.types Demo.elec_silent Demo.io
              Demo.text Demo.units "in.fil" "out/run.slc" "daq" "snr" []
              (PFloat (Demo.fl 5)) Demo.w0 Demo.fin0 Demo.fout0 _ 0 _ Ho Hl)
    as (w' & Hs & _ & _ & Hz & _).
  exists w'. split; [exact Hs|]. exact (proj1 (Hz eq_refl)).
Defined.

Lemma failure_before_gates_abandons_pass_witness :
  Demo.opened Demo.elec_broken = (Ok (Demo.fin0, Demo.fout0), snd (Demo.opened Demo.elec_broken)) ∧
  @fails_before_gates Demo.types Demo.elec_broken
    (w_cfg (snd (Demo.opened Demo.elec_broken))) Demo.pes3 Demo.broken ∧
  Demo.looped Demo.elec_broken = (Raise Demo.broken, snd (Demo.opened Demo.elec_broken)).
Proof.
  assert (Demo.opened Demo.elec_broken
          = (Ok (Demo.fin0, Demo.fout0), snd (Demo.opened Demo.elec_broken))) as Ho
    by (vm_compute; reflexivity).
  assert (@fails_before_gates Demo.types Demo.elec_broken
            (w_cfg (snd (Demo.opened Demo.elec_broken))) Demo.pes3 Demo.broken) as Hf
    by (left; reflexivity).
  split; [exact Ho|]. split; [exact Hf|].
  refine (proj1 (proj2 (@failure_before_gates_abandons_pass Demo.types Demo.elec_broken
              Demo.io Demo.text Demo.units "in.fil" "out/run.slc" "daq" "snr" []
              (PFloat (Demo.fl 5)) Demo.w0 Demo.fin0 Demo.fout0 _
              [] Demo.ev3 [Demo.ev3] 0 _ Demo.pes3 Demo.broken Ho _ _ _ Hf))).
  - reflexivity.
  - reflexivity.
  - vm_compute. reflexivity.
Defined.

Lemma output_path_derivation_witness :
  no_slash "daq" ∧ no_slash "snr" ∧
  Path_name (@output_path_of Demo.text "out/run.slc" "daq" "snr" (PInt 5))
  = "run_daq_snr_5.slc".
Proof.
  split; [reflexivity|]. split; [reflexivity|].
  exact (proj1 (proj2 (proj2
    (@output_path_derivation Demo.types Demo.io Demo.text Demo.units
       "out/run.slc" "daq" "snr" (PInt 5) eq_refl eq_refl eq_refl)))).
Defined.

(** * Further properties *)

(** ** Failures inside a gate and outside the gates *)

Section gate_failures.
Context `{DsTypes} `{!DsElec}.

Lemma mfor_cons {S X} (x : X) (xs : list X) (body : X → M S unit) (s : S) :
  mfor (x :: xs) body s =
  match body x s with
  | (Ok _, s') => mfor xs body s'
  | (Raise e, s') => (Raise e, s')
  end.
Proof. reflexivity. Qed.

Lemma gate_body_failure cfg i pe' t g st e :
  (create_veto_waveforms cfg (List.filter (in_gate t g) pe') g t = Raise e) ∨
  (∃ wfs, create_veto_waveforms cfg (List.filter (in_gate t g) pe') g t = Ok wfs ∧
          find_zle_intervals cfg wfs t = Raise e) ∨
  (∃ wfs z, create_veto_waveforms cfg (List.filter (in_gate t g) pe') g t = Ok wfs ∧
            find_zle_intervals cfg wfs t = Ok z ∧
            sum_zles cfg z wfs (ps_summed st) t = Raise e ∧
            zle_too_short e = false) →
  gate_body cfg i pe' (t, g) st = (Ok tt, with_log (WarnGateError i t e) st).
Proof.
  intros Hfail. unfold gate_body, try_sum_zles. munfold.
  destruct Hfail as [Hw|[(wfs & Hw & Hz)|(wfs & z & Hw & Hz & Hs & He)]];
    rewrite Hw; simpl; [done| |]; rewrite Hz; simpl; [done|].
  rewrite Hs. simpl. by rewrite He.
Qed.

(** X1: a gate for which waveform synthesis or ZLE detection raises, or the
    summation raises anything but the "too short" error, changes nothing
    but the log, which receives the warning with the start of the gate and
    the exception; the loop goes on with the next gate. *)
Theorem gate_failure_skips_gate cfg i pe' t g rest st e :
  (create_veto_waveforms cfg (List.filter (in_gate t g) pe') g t = Raise e) ∨
  (∃ wfs, create_veto_waveforms cfg (List.filter (in_gate t g) pe') g t = Ok wfs ∧
          find_zle_intervals cfg wfs t = Raise e) ∨
  (∃ wfs z, create_veto_waveforms cfg (List.filter (in_gate t g) pe') g t = Ok wfs ∧
            find_zle_intervals cfg wfs t = Ok z ∧
            sum_zles cfg z wfs (ps_summed st) t = Raise e ∧
            zle_too_short e = false) →
  mfor ((t, g) :: rest) (gate_body cfg i pe') st
  = mfor rest (gate_body cfg i pe') (with_log (WarnGateError i t e) st).
Proof.
  intros Hfail. rewrite mfor_cons. by rewrite (gate_body_failure _ _ _ _ _ _ _ Hfail).
Qed.

(** X2: when hit extraction raises for a gate whose summation succeeded,
    the gate leaves no ZLE and no hit records, but its waveforms stay in
    the running sum [summed_wfs] that the later gates build on. *)
Theorem find_hits_failure_keeps_summation cfg i pe' t g rest st wfs z s e :
  create_veto_waveforms cfg (List.filter (in_gate t g) pe') g t = Ok wfs →
  find_zle_intervals cfg wfs t = Ok z →
  sum_zles cfg z wfs (ps_summed st) t = Ok s →
  find_hits cfg wfs z t = Raise e →
  mfor ((t, g) :: rest) (gate_body cfg i pe') st
  = mfor rest (gate_body cfg i pe')
      (with_log (WarnGateError i t e) (with_summed s st)).
Proof.
  intros Hw Hz Hs Hh. rewrite mfor_cons.
  assert (gate_body cfg i pe' (t, g) st
          = (Ok tt, with_log (WarnGateError i t e) (with_summed s st))) as ->; [|done].
  unfold gate_body, try_sum_zles. munfold.
  rewrite Hw. simpl. rewrite Hz. simpl. rewrite Hs. simpl. by rewrite Hh.
Qed.

(** X3: when downsampling the running sum raises, the warning of a failed
    gate is logged although the ZLE and hit records of the gate are
    already in the running lists, where they stay; [top_wf] and [bot_wf]
    keep their former values. *)
Theorem downsample_failure_keeps_records cfg i pe' t g rest st wfs z sw h e :
  create_veto_waveforms cfg (List.filter (in_gate t g) pe') g t = Ok wfs →
  find_zle_intervals cfg wfs t = Ok z →
  sum_zles cfg z wfs (ps_summed st) t = Ok (Some sw) →
  find_hits cfg wfs z t = Ok h →
  downsample_summed_wfs cfg sw = Raise e →
  mfor ((t, g) :: rest) (gate_body cfg i pe') st
  = mfor rest (gate_body cfg i pe')
      (with_log (WarnGateError i t e)
         (with_append z (shift_zle_id (count_zles (ps_zles st)) <$> h)
            (with_summed (Some sw) st))).
Proof.
  intros Hw Hz Hs Hh Hd. rewrite mfor_cons.
  match goal with |- match ?x with _ => _ end = mfor _ _ ?s =>
    assert (x = (Ok tt, s)) as ->; [|done] end.
  unfold gate_body, try_sum_zles. munfold.
  rewrite Hw. simpl. rewrite Hz. simpl. rewrite Hs. simpl. rewrite Hh. simpl.
  by rewrite Hd.
Qed.

(** X4: a failure of the pass outside the gates, in the selection of the
    photoelectrons or in the extraction, changes nothing but the log: the
    lists collected from the gates, the running sum and [out] stay. *)
Theorem outside_failure_keeps_gates cfg i pe' ts gs st e :
  (get_pes_outside_gates cfg pe' ts gs = Raise e) ∨
  (∃ pes, get_pes_outside_gates cfg pe' ts gs = Ok pes ∧
          find_effective_zles_hits cfg pes = Raise e) →
  outside_gates cfg i pe' ts gs st = (Ok tt, with_log (WarnOutsideError i e) st).
Proof.
  unfold outside_gates. munfold.
  intros [Ho|(pes & Ho & He)]; rewrite Ho; simpl; [done|]. by rewrite He.
Qed.

End gate_failures.

Lemma gate_failure_skips_gate_witness :
  Scenarios.gates_at Scenarios.elec_sum_error
  = (Ok tt, with_log (WarnGateError 0 (Demo.fl 0) Demo.broken) (Demo.start [])).
Proof.
  apply (@gate_failure_skips_gate Demo.types Scenarios.elec_sum_error ∅ 0
           Demo.pes3 (Demo.fl 0) (Demo.fl 5) [] (Demo.start []) Demo.broken).
  right. right. eexists _, _. repeat split; reflexivity.
Defined.

Lemma find_hits_failure_keeps_summation_witness :
  Scenarios.gates_at Scenarios.elec_no_hits
  = (Ok tt, with_log (WarnGateError 0 (Demo.fl 0) Demo.broken)
              (@with_summed Demo.types (Some 2) (Demo.start []))).
Proof.
  apply (@find_hits_failure_keeps_summation Demo.types Scenarios.elec_no_hits ∅ 0
           Demo.pes3 (Demo.fl 0) (Demo.fl 5) [] (Demo.start [])
           Demo.gate_wfs Demo.gate_zles (Some 2) Demo.broken); reflexivity.
Defined.

Lemma downsample_failure_keeps_records_witness :
  ∃ h, Demo.gate_hits Scenarios.elec_no_downsample = Ok h ∧
  Scenarios.gates_at Scenarios.elec_no_downsample
  = (Ok tt, with_log (WarnGateError 0 (Demo.fl 0) Demo.broken)
              (with_append Demo.gate_zles h
                 (@with_summed Demo.types (Some 2) (Demo.start [])))).
Proof.
  eexists. split; [reflexivity|].
  refine (eq_trans
    (@downsample_failure_keeps_records Demo.types Scenarios.elec_no_downsample ∅ 0
       Demo.pes3 (Demo.fl 0) (Demo.fl 5) [] (Demo.start [])
       Demo.gate_wfs Demo.gate_zles 2 _ Demo.broken
       eq_refl eq_refl eq_refl eq_refl eq_refl) _).
  vm_compute. reflexivity.
Defined.

Lemma outside_failure_keeps_gates_witness :
  Scenarios.outside_at Scenarios.elec_outside_fails
  = (Ok tt, with_log (WarnOutsideError 0 Demo.broken) (Demo.start [])).
Proof.
  apply (@outside_failure_keeps_gates Demo.types Scenarios.elec_outside_fails ∅ 0
           Demo.pes3 [Demo.fl 0] [Demo.fl 5] (Demo.start []) Demo.broken).
  right. eexists. split; reflexivity.
Defined.

(** ** What process_event raises and what it leaves in [out] *)

Section process_event_outcomes.
Context `{DsTypes} `{!DsElec}.

Global Instance quiet_preorder : PreOrder quiet.
Proof.
  split.
  - intros s. by split.
  - intros s1 s2 s3 [Hl12 Ho12] [Hl23 Ho23]. split; [lia|].
    intros Hlen. rewrite Ho23 by lia. apply Ho12. lia.
Qed.

Global Instance log_extends_preorder : PreOrder log_extends.
Proof.
  split.
  - intros s. exists []. by rewrite app_nil_r.
  - intros s1 s2 s3 [a Ha] [b Hb]. exists (a ++ b). by rewrite Hb, Ha, app_assoc.
Qed.

Lemma gate_body_quiet cfg i pe' tg :
  preserves (λ s s', quiet s s' ∧ log_extends s s') (gate_body cfg i pe' tg).
Proof.
  intros st r st'. destruct tg as [t g]. unfold gate_body, try_sum_zles. munfold.
  unfold quiet, log_extends.
  destruct (create_veto_waveforms _ _ _ _) as [wfs|e]; simpl;
    [|intros [= <- <-]; simpl; eauto].
  destruct (find_zle_intervals _ _ _) as [z|e]; simpl;
    [|intros [= <- <-]; simpl; eauto].
  destruct (sum_zles _ _ _ _ _) as [s|e]; simpl.
  - destruct (find_hits _ _ _ _) as [h|e]; simpl;
      [|intros [= <- <-]; simpl; eauto].
    destruct s as [s|]; simpl.
    + destruct (downsample_summed_wfs _ _) as [tb|e]; simpl;
        intros [= <- <-]; simpl; rewrite length_app; simpl;
        (split; [split; [lia|intros; lia]|]).
      * exists []. by rewrite app_nil_r.
      * eauto.
    + intros [= <- <-]; simpl; rewrite length_app; simpl.
      split; [split; [lia|intros; lia]|]. exists []. by rewrite app_nil_r.
  - destruct (zle_too_short e); simpl; intros [= <- <-]; simpl; eauto.
Qed.

Lemma outside_gates_quiet cfg i pe' ts gs :
  preserves (λ s s', quiet s s' ∧ log_extends s s') (outside_gates cfg i pe' ts gs).
Proof.
  intros st r st'. unfold outside_gates. munfold. unfold quiet, log_extends.
  destruct (get_pes_outside_gates _ _ _ _) as [pes|e]; simpl;
    [|intros [= <- <-]; simpl; eauto].
  destruct (find_effective_zles_hits _ _) as [zh|e]; simpl;
    intros [= <- <-]; simpl; [|eauto].
  rewrite length_app; simpl.
  split; [split; [lia|intros; lia]|]. exists []. by rewrite app_nil_r.
Qed.

Global Instance quiet_log_preorder :
  PreOrder (λ s s' : pstate, quiet s s' ∧ log_extends s s').
Proof.
  split.
  - intros s. split; reflexivity.
  - intros s1 s2 s3 [? ?] [? ?]. split; by etrans.
Qed.

(** [collect] after its first steps: the passes run from a state with
    empty lists whose [out] holds the perturbed photoelectrons *)
Lemma collect_steps cfg i ev st pe' tg :
  before_gates cfg ev = Ok (pe', tg) →
  ∃ s0, ps_out s0 = set_out_pe pe' (ps_out st) ∧ ps_log s0 = ps_log st ∧
        ps_hits s0 = [] ∧ ps_zles s0 = [] ∧
        collect cfg i ev st =
          (mfor (zip tg.1 tg.2) (gate_body cfg i pe') >>>
           outside_gates cfg i pe' tg.1 tg.2) s0.
Proof.
  unfold before_gates, collect.
  destruct (ev_pe ev) as [a|]; [|done].
  destruct (find_waveform_gates cfg a) as [tg0|] eqn:Hf; [|done].
  destruct (add_noise_pes cfg a _) as [noisy|] eqn:Hn; [|done].
  destruct (add_daq_jitter cfg noisy) as [p|] eqn:Hj; [|done].
  intros [= -> ->].
  eexists (with_out (set_out_pe pe') (with_out (set_out_pe noisy) (with_fresh_locals st))).
  do 4 (split; [done|]).
  unfold mbind at 1, mmodify at 1. unfold mbind at 1, mlift at 1.
  unfold mbind at 1, mlift at 1. rewrite Hf.
  unfold mbind at 1, mlift at 1. rewrite Hn.
  unfold mbind at 1, mmodify at 1.
  unfold mbind at 1, mlift at 1. rewrite Hj.
  unfold mbind at 1, mmodify at 1. reflexivity.
Qed.

Lemma passes_quiet cfg i pe' ts gs s0 r s1 :
  (mfor (zip ts gs) (gate_body cfg i pe') >>> outside_gates cfg i pe' ts gs) s0 = (r, s1) →
  quiet s0 s1 ∧ log_extends s0 s1.
Proof.
  apply (preserves_bind (λ s s', quiet s s' ∧ log_extends s s')).
  - apply preserves_for; [apply _|]. intros tg. apply gate_body_quiet.
  - intros _. apply outside_gates_quiet.
Qed.

Lemma passes_lengths cfg i pe' ts gs s0 r s1 :
  length (ps_zles s0) = length (ps_hits s0) →
  (mfor (zip ts gs) (gate_body cfg i pe') >>> outside_gates cfg i pe' ts gs) s0 = (r, s1) →
  length (ps_zles s1) = length (ps_hits s1).
Proof.
  intros Hlen. unfold mbind.
  destruct (gates_loop_inv (λ zs hs, length zs = length hs) cfg i pe' (zip ts gs) s0
              lengths_invariant Hlen) as (sa & -> & Ha).
  destruct (outside_gates_effect cfg i pe' ts gs sa) as (sb & -> & Heff).
  intros [= _ <-]. by eapply (pass_effect_inv _ _ _ lengths_invariant Heff).
Qed.

Lemma finish_raise cfg i st e st' :
  finish cfg i st = (Raise e, st') →
  ps_hits st ≠ [] ∧ ps_zles st ≠ [] ∧
  (get_zle_gain_veto cfg = Raise e ∨ get_hit_gain_veto cfg = Raise e).
Proof.
  unfold finish. munfold. simpl.
  destruct (ps_hits st) as [|h hs]; simpl; [done|].
  destruct (ps_zles st) as [|z zs]; simpl; [done|].
  destruct (get_zle_gain_veto cfg) as [gz|e0]; simpl;
    [|intros [= <- _]; by auto].
  destruct (get_hit_gain_veto cfg) as [gh|e0]; simpl;
    [done|intros [= <- _]; by auto].
Qed.

(** X5: an exception leaves process_event only from its first steps (the
    key 'pe', gate discovery, noise, jitter) or, when records were
    collected, from the reading of a gain table; no failure inside a gate
    or outside the gates does. *)
Theorem process_event_raises_only_early cfg i ev st e st' :
  process_event cfg i ev st = (Raise e, st') →
  before_gates cfg ev = Raise e ∨
  (∃ x, before_gates cfg ev = Ok x ∧
        (get_zle_gain_veto cfg = Raise e ∨ get_hit_gain_veto cfg = Raise e)).
Proof.
  unfold process_event, mbind.
  destruct (collect_result (λ _ _, True) cfg i ev st) as (s1 & Hc); [done..|].
  destruct (before_gates cfg ev) as [x|e0].
  - destruct Hc as [-> _]. intros Hf. right. exists x. split; [done|].
    by apply finish_raise in Hf as (_ & _ & ?).
  - destruct Hc as [-> _]. intros [= <- _]. by left.
Qed.

(** X6: when process_event returns false, the only key of [out] it has
    written is 'pe', which holds the photoelectrons after noise and jitter;
    'zles', 'hits', 'top_wf' and 'bot_wf' are as the caller passed them.
    The log of the caller is extended, last by the warning that the event
    is skipped. *)
Theorem process_event_false_touches_only_pe cfg i ev st st' :
  process_event cfg i ev st = (Ok false, st') →
  ∃ pe' tg added,
    before_gates cfg ev = Ok (pe', tg) ∧
    ps_out st' = set_out_pe pe' (ps_out st) ∧
    ps_log st' = ps_log st ++ added ++ [WarnNoValidData i].
Proof.
  unfold process_event, mbind.
  destruct (before_gates cfg ev) as [[pe' tg]|e0] eqn:Hb.
  - destruct (collect_steps cfg i ev st pe' tg Hb)
      as (s0 & Hout & Hlog & Hh & Hz & ->).
    destruct ((mfor _ _ >>> outside_gates _ _ _ _ _) s0) as [[[]|e] s1] eqn:Hp;
      [|done].
    pose proof (passes_lengths _ _ _ _ _ _ _ _ ltac:(by rewrite Hh, Hz) Hp) as Hlen.
    apply passes_quiet in Hp as [[_ Hq] [added Hadd]].
    intros Hf. apply finish_false in Hf as [Hempty ->].
    exists pe', tg, added. split; [done|]. simpl.
    rewrite Hadd, Hlog, app_assoc. split; [|done].
    rewrite <- Hout. apply Hq. rewrite Hh. simpl.
    destruct Hempty as [->|Hz']; [done|]. by rewrite <- Hlen, Hz'.
  - destruct (collect_result (λ _ _, True) cfg i ev st) as (s1 & Hc); [done..|].
    rewrite Hb in Hc. destruct Hc as [-> _]. done.
Qed.

End process_event_outcomes.

Lemma process_event_raises_only_early_witness :
  let run := Demo.process_at Scenarios.elec_no_gain Demo.ev3 in
  run = (Raise Demo.broken, snd run) ∧
  (@before_gates Demo.types Scenarios.elec_no_gain ∅ Demo.ev3 = Raise Demo.broken ∨
   ∃ x, @before_gates Demo.types Scenarios.elec_no_gain ∅ Demo.ev3 = Ok x ∧
        (@get_zle_gain_veto Demo.types Scenarios.elec_no_gain ∅ = Raise Demo.broken ∨
         @get_hit_gain_veto Demo.types Scenarios.elec_no_gain ∅ = Raise Demo.broken)).
Proof.
  assert (Demo.process_at Scenarios.elec_no_gain Demo.ev3
          = (Raise Demo.broken, snd (Demo.process_at Scenarios.elec_no_gain Demo.ev3)))
    as Hrun by (vm_compute; reflexivity).
  split; [exact Hrun|].
  exact (@process_event_raises_only_early Demo.types Scenarios.elec_no_gain ∅ 0
           Demo.ev3 (Demo.start []) Demo.broken _ Hrun).
Defined.

Lemma process_event_false_touches_only_pe_witness :
  let run := Demo.process_at Demo.elec_silent Demo.ev3 in
  run = (Ok false, snd run) ∧
  ∃ pe', ps_out (snd run) = @set_out_pe Demo.types pe' (ps_out (Demo.start [])).
Proof.
  assert (Demo.process_at Demo.elec_silent Demo.ev3
          = (Ok false, snd (Demo.process_at Demo.elec_silent Demo.ev3)))
    as Hrun by (vm_compute; reflexivity).
  split; [exact Hrun|].
  destruct (@process_event_false_touches_only_pe Demo.types Demo.elec_silent ∅ 0
              Demo.ev3 (Demo.start []) _ Hrun) as (pe' & tg & added & _ & Hout & _).
  exists pe'. exact Hout.
Defined.

(** ** Values that the configuration rejects *)

Ltac split_names :=
  repeat match goal with
         | |- context [String.eqb ?a ?b] =>
             destruct (String.eqb_spec a b); subst; simpl; try discriminate
         end.

Section config_failures.
Context `{PyText} `{Units}.

Lemma update_config_raise_unchanged section param value cfg e cfg' :
  update_config_parameter section param value cfg = (Raise e, cfg') → cfg' = cfg.
Proof.
  unfold update_config_parameter, among, cfg_set. munfold. simpl.
  split_names; try discriminate;
    try (destruct (py_float value) as [f|e0]; simpl; [discriminate|];
         by intros [= <- <-]);
    try (destruct (py_int value) as [z|e0]; simpl; [discriminate|];
         by intros [= <- <-]).
Qed.

(** X7: update_config_parameter is all or nothing.  When it raises, the
    configuration is untouched and the exception is the one of [float] or
    [int] applied to the value; a sweep of daq.noise_spectrum and an
    unknown pair never raise. *)
Theorem update_config_failure_is_atomic section param value cfg e cfg' :
  update_config_parameter section param value cfg = (Raise e, cfg') →
  cfg' = cfg ∧ (py_float value = Raise e ∨ py_int value = Raise e) ∧
  table_lookup section param config_table ≠ None ∧
  ¬ (section = "daq" ∧ param = "noise_spectrum").
Proof.
  unfold update_config_parameter, among, cfg_set. munfold. simpl.
  split_names; try discriminate;
    try (destruct (py_float value) as [f|e0] eqn:Hf; simpl; [discriminate|];
         intros [= <- <-]; repeat split; auto; intros [? ?]; congruence);
    try (destruct (py_int value) as [z|e0] eqn:Hz; simpl; [discriminate|];
         intros [= <- <-]; repeat split; auto; intros [? ?]; congruence).
Qed.

Lemma float_trunc_raises f e :
  float_trunc f = Raise e → float_is_finite f = false.
Proof.
  unfold float_trunc, float_is_finite.
  by destruct (FloatOps.Prim2SF f).
Qed.

(** X8: a float value, as every value of a command line is for the
    numeric parameters, is rejected only by zle.pre_trigger and
    zle.post_trigger, and only when it is nan or infinite: every other
    known parameter stores it. *)
Theorem float_value_rejected_only_by_triggers section param f cfg e cfg' :
  update_config_parameter section param (PFloat f) cfg = (Raise e, cfg') →
  section = "zle" ∧ (param = "pre_trigger" ∨ param = "post_trigger") ∧
  float_is_finite f = false.
Proof.
  unfold update_config_parameter, among, cfg_set. munfold. simpl.
  split_names; try discriminate;
    (destruct (float_trunc f) as [z|e0] eqn:Hz; simpl; [discriminate|];
     intros _; apply float_trunc_raises in Hz; auto).
Qed.

End config_failures.

Lemma update_config_failure_is_atomic_witness :
  @update_config_parameter Demo.text Demo.units "daq" "snr" (PStr "ten") ∅
  = (Raise (Exn ValueError "could not convert string to float"), ∅) ∧
  @py_float Demo.text (PStr "ten")
  = Raise (Exn ValueError "could not convert string to float").
Proof.
  split; [reflexivity|].
  destruct (@update_config_failure_is_atomic Demo.text Demo.units "daq" "snr"
              (PStr "ten") ∅ (Exn ValueError "could not convert string to float") ∅
              eq_refl) as (_ & [Hf|Hi] & _); [exact Hf|discriminate Hi].
Defined.

Lemma float_value_rejected_only_by_triggers_witness :
  let nan := PrimFloat.div (float_of_Z 0) (float_of_Z 0) in
  @update_config_parameter Demo.text Demo.units "zle" "pre_trigger" (PFloat nan) ∅
  = (Raise (Exn ValueError "cannot convert float NaN to integer"), ∅) ∧
  float_is_finite nan = false.
Proof.
  split; [reflexivity|].
  exact (proj2 (proj2 (@float_value_rejected_only_by_triggers Demo.text Demo.units
    "zle" "pre_trigger" (PrimFloat.div (float_of_Z 0) (float_of_Z 0)) ∅
    (Exn ValueError "cannot convert float NaN to integer") ∅ eq_refl))).
Defined.

(** ** One sweep value, step by step *)

Section sweep_steps.
Context `{DsTypes} `{!DsElec} `{!DsIO} `{PyText} `{Units}.

Lemma on_cfg_same (w : world) : on_cfg (λ _, w_cfg w) w = w.
Proof. by destruct w. Qed.

(** one sweep value after a successful update of the configuration *)
Lemma sweep_value_after_update input_path output_base section param opts value w cfg1 :
  update_config_parameter section param value (w_cfg w) = (Ok tt, cfg1) →
  sweep_value input_path output_base section param opts value w
  = mtry (after_update input_path output_base section param opts value)
         (sweep_handler section param value) (on_cfg (λ _, cfg1) w).
Proof.
  intros Hu.
  unfold sweep_value, sweep_value_try, after_update, open_pass, in_cfg, mtry.
  unfold mbind at 1 2 3. rewrite Hu. unfold mbind at 3 4. reflexivity.
Qed.

Global Instance same_cfg_preorder : PreOrder same_cfg.
Proof.
  split; [by intros w|]. intros w1 w2 w3 H12 H23. unfold same_cfg in *. congruence.
Qed.

Global Instance same_storage_preorder : PreOrder same_storage.
Proof.
  split; [by intros w|].
  intros w1 w2 w3 (?&?&?) (?&?&?). unfold same_storage. repeat split; congruence.
Qed.

Lemma after_update_same_cfg input_path output_base section param opts value :
  preserves same_cfg (after_update input_path output_base section param opts value).
Proof.
  unfold after_update.
  apply preserves_bind; [apply _| |intros ff].
  - apply preserves_bind; [apply _|by apply preserves_modify|intros _].
    apply preserves_bind; [apply _| |intros fin].
    + unfold open_reader.
      apply preserves_bind; [apply _|apply preserves_lift; apply _|intros f].
      apply preserves_bind; [apply _|apply preserves_get; apply _|intros w0].
      apply preserves_bind; [apply _|by apply preserves_modify|intros _].
      apply preserves_ret; apply _.
    + apply preserves_bind; [apply _| |intros fout; apply preserves_ret; apply _].
      unfold open_writer.
      apply preserves_bind; [apply _|apply preserves_get; apply _|intros w0].
      apply preserves_bind; [apply _|by apply preserves_modify|intros _].
      apply preserves_bind; [apply _|by apply preserves_modify|intros _].
      apply preserves_ret; apply _.
  - apply preserves_bind; [apply _| |intros v].
    + intros s r s' Hl. by apply events_loop_frame in Hl as (?&_).
    + unfold close_pass, close_handle.
      apply preserves_bind; [apply _|by apply preserves_modify|intros _].
      apply preserves_bind; [apply _|by apply preserves_modify|intros _].
      destruct (0 <? v).
      * by apply preserves_modify.
      * apply preserves_bind; [apply _|by apply preserves_modify|intros _].
        apply preserves_bind; [apply _|apply preserves_get; apply _|intros w0].
        destruct (decide _); [by apply preserves_modify|apply preserves_ret; apply _].
Qed.

Lemma sweep_value_rejected input_path output_base section param opts value w e cfg' :
  update_config_parameter section param value (w_cfg w) = (Raise e, cfg') →
  sweep_value input_path output_base section param opts value w
  = (Ok tt, on_log (λ l, l ++ [ErrorSweepValue section param value e]) w).
Proof.
  intros Hu. pose proof (update_config_raise_unchanged _ _ _ _ _ _ Hu) as ->.
  unfold sweep_value, sweep_value_try, open_pass, in_cfg, mtry.
  unfold mbind at 1 2 3. rewrite Hu. munfold. by rewrite on_cfg_same.
Qed.

(** X9: a value that the configuration rejects is only logged: the
    iteration of the sweep opens no reader and no writer, creates no file
    and leaves the configuration as it was. *)
Theorem rejected_value_is_only_logged input_path output_base section param opts
    value w e cfg' :
  update_config_parameter section param value (w_cfg w) = (Raise e, cfg') →
  sweep_value input_path output_base section param opts value w
  = (Ok tt, on_log (λ l, l ++ [ErrorSweepValue section param value e]) w).
Proof.
  apply sweep_value_rejected.
Qed.

(** X10: the configuration that a sweep value sets is the configuration
    at the end of its iteration, however the pass over the file ends:
    nothing after the update writes to the configuration. *)
Theorem sweep_value_keeps_new_config input_path output_base section param opts
    value w cfg1 r w' :
  update_config_parameter section param value (w_cfg w) = (Ok tt, cfg1) →
  sweep_value input_path output_base section param opts value w = (r, w') →
  w_cfg w' = cfg1.
Proof.
  intros Hu. rewrite (sweep_value_after_update _ _ _ _ _ _ _ _ Hu). intros Hs.
  assert (preserves same_cfg
            (mtry (after_update input_path output_base section param opts value)
                  (sweep_handler section param value))) as Hp.
  { apply preserves_try; [apply _|apply after_update_same_cfg|].
    intros e0. by apply preserves_modify. }
  by apply Hp in Hs.
Qed.

End sweep_steps.

(** ** An input file that cannot be read *)

Section unreadable.
Context `{DsTypes} `{!DsElec} `{!DsIO} `{PyText} `{Units}.

Lemma sweep_value_unreadable input_path output_base section param opts value w e :
  read_file input_path opts = Raise e →
  ∀ r w', sweep_value input_path output_base section param opts value w = (r, w') →
          r = Ok tt ∧ same_storage w w'.
Proof.
  intros Hr r w'.
  destruct (update_config_parameter section param value (w_cfg w))
    as [[[]|e0] cfg1] eqn:Hu.
  - rewrite (sweep_value_after_update _ _ _ _ _ _ _ _ Hu).
    unfold after_update, open_reader, sweep_handler, mtry. munfold.
    rewrite Hr. simpl. intros [= <- <-]. by repeat split.
  - rewrite (sweep_value_rejected _ _ _ _ _ _ _ _ _ Hu).
    intros [= <- <-]. by repeat split.
Qed.

(** making the output directory either raises and leaves the world as it
    was, or ends normally and leaves files and handles as they were *)
Lemma mkdir_parents_cases p w :
  (∃ e, mkdir_parents p w = (Raise e, w)) ∨
  (∃ w0, mkdir_parents p w = (Ok tt, w0) ∧ same_storage w w0).
Proof.
  unfold mkdir_parents. munfold.
  destruct (mkdir_refused _); [left; by eexists|].
  destruct (file_in_the_way _ _); [left; by eexists|].
  right. eexists. by repeat split.
Qed.

(** X11: when the input file cannot be opened, a sweep over any values
    creates no output file and leaves no handle open: every value is
    stopped at the reader, before its writer is made.  The sweep ends as
    the creation of the output directory ends, normally once the
    directory is there. *)
Theorem unreadable_input_writes_nothing input_path output_base section param opts
    values w e :
  read_file input_path opts = Raise e →
  ∃ w', process_with_params input_path output_base section param values opts w
        = (fst (mkdir_parents (Path_parent (Path_of_string output_base)) w), w') ∧
        w_files w' = w_files w ∧ w_open w' = w_open w.
Proof.
  intros Hr. unfold process_with_params, mbind at 1.
  destruct (mkdir_parents_cases (Path_parent (Path_of_string output_base)) w)
    as [[e0 ->]|(w0 & -> & Hs0)]; [by exists w|].
  simpl fst. revert w0 Hs0.
  induction values as [|v values IH]; intros w0 Hs0.
  - exists w0. by destruct Hs0 as (?&?&?).
  - rewrite mfor_cons.
    destruct (sweep_value input_path output_base section param opts v w0)
      as [r w1] eqn:Hv.
    destruct (sweep_value_unreadable _ _ _ _ _ _ _ _ Hr _ _ Hv) as [-> Hs1].
    apply IH. by etrans.
Qed.

End unreadable.

Lemma rejected_value_is_only_logged_witness :
  @sweep_value Demo.types Demo.elec_ok Demo.io Demo.text Demo.units
    "in.fil" "out/run.slc" "daq" "snr" [] PNone Demo.w0
  = (Ok tt, on_log (λ l, l ++ [ErrorSweepValue "daq" "snr" PNone
       (Exn TypeError "float() argument must be a string or a real number")])
       Demo.w0).
Proof.
  exact (@rejected_value_is_only_logged Demo.types Demo.elec_ok Demo.io Demo.text
           Demo.units "in.fil" "out/run.slc" "daq" "snr" [] PNone Demo.w0
           (Exn TypeError "float() argument must be a string or a real number")
           (w_cfg Demo.w0) eq_refl).
Defined.

Lemma sweep_value_keeps_new_config_witness :
  w_cfg (snd (Demo.sweep_at Demo.elec_broken (PFloat (Demo.fl 5))))
  = <[ "daq.snr" := PFloat (Demo.fl 5) ]> (w_cfg Demo.w0).
Proof.
  apply (@sweep_value_keeps_new_config Demo.types Demo.elec_broken Demo.io Demo.text
           Demo.units "in.fil" "out/run.slc" "daq" "snr" [] (PFloat (Demo.fl 5))
           Demo.w0 _ (fst (Demo.sweep_at Demo.elec_broken (PFloat (Demo.fl 5))))).
  - reflexivity.
  - unfold Demo.sweep_at. by destruct (sweep_value _ _ _ _ _ _ _).
Defined.

Lemma unreadable_input_writes_nothing_witness :
  ∃ w', @process_with_params Demo.types Demo.elec_ok Demo.io Demo.text Demo.units
          "missing.fil" "out/run.slc" "daq" "snr"
          [PFloat (Demo.fl 5); PFloat (Demo.fl 10)] [] Demo.w0 = (Ok tt, w') ∧
        w_files w' = w_files Demo.w0 ∧ w_open w' = w_open Demo.w0.
Proof.
  apply (@unreadable_input_writes_nothing Demo.types Demo.elec_ok Demo.io Demo.text
           Demo.units "missing.fil" "out/run.slc" "daq" "snr" []
           [PFloat (Demo.fl 5); PFloat (Demo.fl 10)] Demo.w0
           (Exn OSError "No such file or directory")).
  reflexivity.
Defined.

(** ** The contents of the output file *)

Section file_contents.
Context `{DsTypes} `{!DsElec} `{!DsIO} `{PyText} `{Units}.

Lemma process_event_true_has_records cfg i ev st st' :
  process_event cfg i ev st = (Ok true, st') → has_records (ps_out st').
Proof.
  intros Hp.
  pose proof (process_event_inv (λ _ _, True) cfg i ev st (Ok true) st') as Hinv.
  simpl in Hinv. destruct Hinv as (_ & _ & _ & gz & gh & _ & _ & Hz & Hh); [done..|].
  split; [rewrite Hz|rewrite Hh]; by eexists.
Qed.

Lemma event_body_file fin fout i ev n w r w' h l :
  w_files w !! wr_path fout = Some (MkSlice h l) →
  event_body fin fout i ev n w = (r, w') →
  ∃ new, w_files w' !! wr_path fout = Some (MkSlice h (l ++ new)) ∧
         Forall has_records new ∧ length new ≤ 1 ∧
         match r with Ok v => v = n + length new | Raise _ => new = [] end.
Proof.
  intros Hfile. pose proof (event_body_cases fin fout i ev n w) as Hb.
  destruct (add_offset _ _) as [shifted|e].
  - simpl in Hb. destruct (process_event _ _ _ _) as [[[|]|e] st'] eqn:Hp;
      simpl in Hb; rewrite Hb; intros [= <- <-]; simpl.
    + exists [ps_out st']. unfold append_event.
      rewrite lookup_alter_eq, Hfile. simpl.
      split; [done|]. split; [|split; [lia|lia]].
      constructor; [|done]. by eapply process_event_true_has_records.
    + exists []. rewrite app_nil_r.
      split; [done|]. split; [done|]. simpl. split; lia.
    + exists []. rewrite app_nil_r.
      split; [done|]. split; [done|]. simpl. split; [lia|done].
  - rewrite Hb. intros [= <- <-]. exists []. rewrite app_nil_r.
    split; [done|]. split; [done|]. simpl. split; [lia|done].
Qed.

Lemma events_iter_file fin fout evs i n w r w' h l :
  w_files w !! wr_path fout = Some (MkSlice h l) →
  events_iter fin fout i evs n w = (r, w') →
  ∃ new, w_files w' !! wr_path fout = Some (MkSlice h (l ++ new)) ∧
         Forall has_records new ∧ length new ≤ length evs ∧
         match r with Ok v => v = n + length new | Raise _ => True end.
Proof.
  revert i n w l. induction evs as [|ev evs IH]; intros i n w l Hfile; simpl.
  - intros [= <- <-]. exists []. rewrite app_nil_r.
    split; [done|]. split; [done|]. simpl. split; lia.
  - unfold mbind.
    destruct (event_body fin fout i ev n w) as [[v|e] w1] eqn:Hb.
    + destruct (event_body_file _ _ _ _ _ _ _ _ _ _ Hfile Hb)
        as (new1 & Hf1 & Hr1 & Hl1 & ->).
      intros Hit. destruct (IH _ _ _ _ Hf1 Hit) as (new2 & Hf2 & Hr2 & Hl2 & Hv).
      exists (new1 ++ new2). rewrite app_assoc. split; [done|].
      split; [by apply Forall_app|]. rewrite length_app. simpl. split; [lia|].
      destruct r; [lia|done].
    + destruct (event_body_file _ _ _ _ _ _ _ _ _ _ Hfile Hb)
        as (new1 & Hf1 & Hr1 & Hl1 & ->).
      intros [= <- <-]. exists []. rewrite app_nil_r in *.
      split; [done|]. split; [done|]. simpl. split; [lia|done].
Qed.

(** X12: after a pass that completes, the output file holds the header of
    the input file followed by exactly as many events as the counter of
    valid events says, at most one per input event, and every one of them
    has its 'zles' and 'hits' stored. *)
Theorem written_events_match_counter input_path output_base section param opts
    value w fin fout w1 v w2 :
  open_pass input_path output_base section param opts value w = (Ok (fin, fout), w1) →
  events_loop fin fout w1 = (Ok v, w2) →
  ∃ evs,
    w_files w2 !! Path_str (output_path_of output_base section param value)
      = Some (MkSlice (in_header (rd_file fin)) evs) ∧
    length evs = v ∧ v ≤ length (in_events (rd_file fin)) ∧
    Forall has_records evs.
Proof.
  intros Ho Hl.
  apply open_pass_result in Ho as (_ & _ & _ & Hpath & _ & Hfiles & _).
  revert Hl. unfold events_loop, mbind.
  destruct (events_iter fin fout 0 _ 0 w1) as [[v0|e] w3] eqn:Hit; [|done].
  destruct (in_fail (rd_file fin)); [done|]. intros [= <- <-].
  destruct (events_iter_file fin fout _ 0 0 w1 _ _ (in_header (rd_file fin)) []
              ltac:(by rewrite Hpath, Hfiles, lookup_insert_eq) Hit)
    as (new & Hf & Hr & Hlen & ->).
  exists new. rewrite <- Hpath. by repeat split.
Qed.

(** X13: a pass that is broken off by an exception, whatever raised it,
    leaves its output file behind: the header and the events written so
    far stay on disk, the file is not removed even when no event was
    valid, and reader and writer stay open. *)
Theorem failed_pass_leaves_partial_file input_path output_base section param opts
    value w fin fout w1 e w2 :
  open_pass input_path output_base section param opts value w = (Ok (fin, fout), w1) →
  events_loop fin fout w1 = (Raise e, w2) →
  let w' := on_log (λ l, l ++ [ErrorSweepValue section param value e]) w2 in
  sweep_value input_path output_base section param opts value w = (Ok tt, w') ∧
  (∃ evs, w_files w' !! Path_str (output_path_of output_base section param value)
            = Some (MkSlice (in_header (rd_file fin)) evs) ∧
          Forall has_records evs) ∧
  rd_id fin ∈ w_open w' ∧ wr_id fout ∈ w_open w'.
Proof.
  intros Ho Hl w'. split.
  { unfold sweep_value, sweep_value_try, mtry, mbind. rewrite Ho. simpl.
    by rewrite Hl. }
  pose proof (events_loop_frame fin fout w1 _ w2 Hl) as (_ & _ & Hopen2 & _).
  pose proof (open_pass_result _ _ _ _ _ _ _ _ _ _ Ho)
    as (_ & Hrd & Hwr & Hpath & Hopen & Hfiles & _).
  split.
  - revert Hl. unfold events_loop, mbind.
    destruct (events_iter fin fout 0 _ 0 w1) as [[v0|e0] w3] eqn:Hit.
    + destruct (in_fail (rd_file fin)); [|done]. intros [= <- <-].
      destruct (events_iter_file fin fout _ 0 0 w1 _ _ (in_header (rd_file fin)) []
                  ltac:(by rewrite Hpath, Hfiles, lookup_insert_eq) Hit)
        as (new & Hf & Hr & _).
      exists new. rewrite <- Hpath. by split.
    + intros [= <- <-].
      destruct (events_iter_file fin fout _ 0 0 w1 _ _ (in_header (rd_file fin)) []
                  ltac:(by rewrite Hpath, Hfiles, lookup_insert_eq) Hit)
        as (new & Hf & Hr & _).
      exists new. rewrite <- Hpath. by split.
  - unfold w'. simpl. rewrite Hopen2, Hopen, Hrd, Hwr.
    rewrite !elem_of_union, !elem_of_singleton. tauto.
Qed.


End file_contents.

(** A regular file where the output directory is to be made stops the
    sweep before its first value: nothing is logged and nothing is
    written.  The file raises FileExistsError when it has the name of the
    directory and NotADirectoryError when it has the name of a parent. *)
Lemma file_in_the_way_stops_the_sweep :
  Scenarios.sweep_from "out/run.slc" Scenarios.w_blocked
  = (Raise (Exn FileExistsError "out"), Scenarios.w_blocked) ∧
  Scenarios.sweep_from "out/sub/run.slc" Scenarios.w_blocked
  = (Raise (Exn NotADirectoryError "out"), Scenarios.w_blocked) ∧
  fst (Scenarios.sweep_from "run.slc" Scenarios.w_blocked) = Ok tt.
Proof. vm_compute. repeat split. Qed.

Lemma written_events_match_counter_witness :
  Demo.opened Demo.elec_ok = (Ok (Demo.fin0, Demo.fout0), snd (Demo.opened Demo.elec_ok)) ∧
  Demo.looped Demo.elec_ok = (Ok 2, snd (Demo.looped Demo.elec_ok)) ∧
  ∃ evs, w_files (snd (Demo.looped Demo.elec_ok)) !! "out/run_daq_snr_5.0.slc"
           = Some (@MkSlice Demo.types "header" evs) ∧ length evs = 2.
Proof.
  assert (Demo.opened Demo.elec_ok
          = (Ok (Demo.fin0, Demo.fout0), snd (Demo.opened Demo.elec_ok))) as Ho
    by (vm_compute; reflexivity).
  assert (Demo.looped Demo.elec_ok = (Ok 2, snd (Demo.looped Demo.elec_ok))) as Hl
    by (vm_compute; reflexivity).
  split; [exact Ho|]. split; [exact Hl|].
  destruct (@written_events_match_counter Demo.types Demo.elec_ok Demo.io Demo.text
              Demo.units "in.fil" "out/run.slc" "daq" "snr" [] (PFloat (Demo.fl 5))
              Demo.w0 Demo.fin0 Demo.fout0 _ 2 _ Ho Hl) as (evs & Hf & Hlen & _).
  exists evs. split; [exact Hf|exact Hlen].
Defined.

Lemma failed_pass_leaves_partial_file_witness :
  Demo.opened Demo.elec_broken
    = (Ok (Demo.fin0, Demo.fout0), snd (Demo.opened Demo.elec_broken)) ∧
  Demo.looped Demo.elec_broken = (Raise Demo.broken, snd (Demo.looped Demo.elec_broken)) ∧
  Demo.sweep_at Demo.elec_broken (PFloat (Demo.fl 5))
  = (Ok tt, on_log (λ l, l ++ [ErrorSweepValue "daq" "snr" (PFloat (Demo.fl 5))
                                 Demo.broken])
              (snd (Demo.looped Demo.elec_broken))).
Proof.
  assert (Demo.opened Demo.elec_broken
          = (Ok (Demo.fin0, Demo.fout0), snd (Demo.opened Demo.elec_broken))) as Ho
    by (vm_compute; reflexivity).
  assert (Demo.looped Demo.elec_broken
          = (Raise Demo.broken, snd (Demo.looped Demo.elec_broken))) as Hl
    by (vm_compute; reflexivity).
  split; [exact Ho|]. split; [exact Hl|].
  exact (proj1 (@failed_pass_leaves_partial_file Demo.types Demo.elec_broken Demo.io
                  Demo.text Demo.units "in.fil" "out/run.slc" "daq" "snr" []
                  (PFloat (Demo.fl 5)) Demo.w0 Demo.fin0 Demo.fout0 _ Demo.broken _
                  Ho Hl)).
Defined.

(** ** The items that main looks at *)

Section main_items.
Context `{DsTypes} `{!DsElec} `{!DsIO} `{PyText} `{Units}.

Lemma main_loop_cons input_path output_base k v rest :
  main_loop input_path output_base ((k, v) :: rest)
  = match (if is_None v then None else dict_get k param_mapping) with
    | Some (section, param) => run_sweep input_path output_base section param v
    | None => main_loop input_path output_base rest
    end.
Proof. reflexivity. Qed.

Lemma main_loop_skip input_path output_base item rest w :
  skipped item →
  main_loop input_path output_base (item :: rest) w
  = main_loop input_path output_base rest w.
Proof.
  destruct item as [k v]. rewrite main_loop_cons. unfold skipped. simpl fst. simpl snd.
  intros [Hn|Hk].
  - by rewrite Hn.
  - rewrite Hk. by destruct (is_None v).
Qed.

(** X15: main honours the first item of its keyword arguments, in their
    order, whose value is not None and whose name is a sweep option; the
    items before it are skipped and the items after it are never looked
    at. *)
Theorem main_loop_honours_first_item input_path output_base pre name v rest
    section param w :
  Forall skipped pre →
  is_None v = false →
  dict_get name param_mapping = Some (section, param) →
  main_loop input_path output_base (pre ++ (name, v) :: rest) w
  = run_sweep input_path output_base section param v w.
Proof.
  intros Hpre Hv Hk. induction Hpre as [|item pre Hitem Hpre IH]; simpl app.
  - by rewrite main_loop_cons, Hv, Hk.
  - by rewrite main_loop_skip.
Qed.

Lemma main_loop_skip_all input_path output_base items extra w :
  Forall skipped extra →
  main_loop input_path output_base (items ++ extra) w
  = main_loop input_path output_base items w.
Proof.
  intros Hextra. induction items as [|[k v] items IH]; simpl app.
  - induction Hextra as [|item extra Hitem Hextra IHe]; [done|].
    by rewrite main_loop_skip.
  - rewrite !main_loop_cons.
    destruct (if is_None v then None else dict_get k param_mapping)
      as [[section param]|]; [done|]. apply IH.
Qed.

(** X16: the options --start and --stop have no effect: the dict of
    parse_args carries them, main passes no reader option on, and the
    whole run is the same with and without them. *)
Theorem main_ignores_start_and_stop c start stop w :
  main (parse_args (MkCommandLine (cl_input c) (cl_output c) start stop (cl_sweeps c))) w
  = main (parse_args c) w.
Proof.
  assert (∀ c', main (parse_args c') w
                = main_loop (cl_input c') (cl_output c')
                    ((λ name, (name, from_option PStr PNone (cl_sweeps c' !! name)))
                       <$> sweep_options) w) as Hmain.
  { intros c'. unfold main, parse_args, sweep_options, mbind, mlift.
    cbn -[main_loop].
    match goal with |- main_loop _ _ ?l _ = main_loop _ _ ?l' _ =>
      replace l with (l' ++ (opt_entry "start" (cl_start c')
                             ++ opt_entry "stop" (cl_stop c')))
    end.
    - apply main_loop_skip_all.
      destruct (cl_start c'), (cl_stop c'); simpl;
        repeat constructor; by right.
    - destruct (cl_start c'), (cl_stop c'); reflexivity. }
  by rewrite !Hmain.
Qed.

(** X17: called without the key 'input_path', or with it and without
    'output_base', main raises a KeyError at once: no directory is made,
    nothing is logged, the configuration is not touched. *)
Theorem main_needs_both_paths kwargs w :
  dict_get "input_path" kwargs = None ∨
  dict_get "output_base" (dict_remove "input_path" kwargs) = None →
  ∃ key, main kwargs w = (Raise (Exn KeyError key), w).
Proof.
  unfold main, dict_pop. munfold.
  intros [Hi|Ho].
  - rewrite Hi. by eexists.
  - destruct (dict_get "input_path" kwargs); simpl; [|by eexists].
    rewrite Ho. by eexists.
Qed.

Lemma floats_of_all xs vs :
  floats_of xs = Ok vs → length vs = length xs ∧ Forall is_PFloat vs.
Proof.
  revert vs. induction xs as [|x xs IH]; intros vs; simpl.
  - intros [= <-]. by split.
  - destruct (float_of_string x) as [f|]; [|done].
    destruct (floats_of xs) as [fs|]; [|done]. intros [= <-].
    destruct (IH fs eq_refl) as [Hl Hf]. split; [simpl; by rewrite Hl|].
    constructor; [by exists f|done].
Qed.

Lemma split_nonempty sep s : split sep s ≠ [].
Proof.
  destruct s as [|c s]; simpl; [done|].
  destruct (Ascii.eqb c sep); [done|]. by destruct (split sep s).
Qed.

(** X18: the values that main makes of the text of an option are one per
    item between commas, at least one; they are strings for
    noise_spectrum and floats for every other parameter, also for the
    integer parameters pre_trigger and post_trigger. *)
Theorem sweep_values_are_typed param s vs :
  sweep_values param (PStr s) = Ok vs →
  length vs = length (split "," s) ∧ vs ≠ [] ∧
  (param = "noise_spectrum" → Forall is_PStr vs) ∧
  (param ≠ "noise_spectrum" → Forall is_PFloat vs).
Proof.
  unfold sweep_values. simpl.
  pose proof (split_nonempty "," s) as Hne.
  destruct (String.eqb_spec param "noise_spectrum") as [->|Hp].
  - intros [= <-]. rewrite !length_fmap. split; [done|].
    split; [by destruct (split "," s)|]. split; [|done]. intros _.
    apply Forall_fmap, Forall_true. intros x. by eexists.
  - intros Hf. apply floats_of_all in Hf as [Hl Hf]. rewrite length_fmap in Hl.
    split; [done|]. split; [|by split].
    intros ->. simpl in Hl. by destruct (split "," s).
Qed.

End main_items.

Lemma main_loop_honours_first_item_witness :
  @main_loop Demo.types Demo.elec_ok Demo.io Demo.text Demo.units "in.fil" "out/run.slc"
    ([("start", PInt 3); ("snr", PNone)] ++ ("tau", PStr "3") :: [("snr", PStr "5")])
    Demo.w0
  = @run_sweep Demo.types Demo.elec_ok Demo.io Demo.text Demo.units
      "in.fil" "out/run.slc" "sipm" "tau" (PStr "3") Demo.w0.
Proof.
  apply (@main_loop_honours_first_item Demo.types Demo.elec_ok Demo.io Demo.text
           Demo.units "in.fil" "out/run.slc" [("start", PInt 3); ("snr", PNone)]
           "tau" (PStr "3") [("snr", PStr "5")] "sipm" "tau" Demo.w0).
  - constructor; [right; reflexivity|]. constructor; [left; reflexivity|constructor].
  - reflexivity.
  - reflexivity.
Defined.

Lemma main_needs_both_paths_witness :
  ∃ key, @main Demo.types Demo.elec_ok Demo.io Demo.text Demo.units
           [("snr", PStr "5")] Demo.w0 = (Raise (Exn KeyError key), Demo.w0).
Proof.
  apply (@main_needs_both_paths Demo.types Demo.elec_ok Demo.io Demo.text Demo.units
           [("snr", PStr "5")] Demo.w0).
  left. reflexivity.
Defined.

Lemma sweep_values_are_typed_witness :
  @sweep_values Demo.text "pre_trigger" (PStr "3, 4")
  = Ok [PFloat (float_of_Z 3); PFloat (float_of_Z 4)] ∧
  Forall is_PFloat [PFloat (float_of_Z 3); PFloat (float_of_Z 4)].
Proof.
  split; [reflexivity|].
  refine (proj2 (proj2 (proj2 (@sweep_values_are_typed Demo.text "pre_trigger" "3, 4"
            [PFloat (float_of_Z 3); PFloat (float_of_Z 4)] eq_refl))) _).
  discriminate.
Defined.

(** ** Names of output files *)

Lemma append_assoc a b c : (a +:+ b) +:+ c = a +:+ (b +:+ c).
Proof.
  induction a as [|x a IH]; [by rewrite !append_nil|].
  by rewrite !append_cons, IH.
Qed.

Lemma length_append a b : String.length (a +:+ b) = String.length a + String.length b.
Proof.
  induction a as [|x a IH]; [by rewrite append_nil|].
  rewrite append_cons. simpl. by rewrite IH.
Qed.

Lemma append_cancel_r a b s : a +:+ s = b +:+ s → a = b.
Proof.
  intros Heq.
  assert (String.length a = String.length b) as Hlen.
  { apply (f_equal String.length) in Heq. rewrite !length_append in Heq. lia. }
  revert b Heq Hlen. induction a as [|x a IH]; intros [|y b] Heq Hlen;
    simpl in Hlen; try done.
  rewrite !append_cons in Heq. injection Heq as -> Heq. f_equal. apply IH; [done|lia].
Qed.

Lemma join_snoc sep l x :
  join sep (l ++ [x]) = (match l with [] => "" | _ => join sep l +:+ sep end) +:+ x.
Proof.
  induction l as [|a l IH]; [by rewrite append_nil|].
  destruct l as [|b l].
  - simpl. by rewrite append_assoc.
  - change (join sep ((a :: b :: l) ++ [x]))
      with (a +:+ sep +:+ join sep ((b :: l) ++ [x])).
    rewrite IH.
    change (join sep (a :: b :: l)) with (a +:+ sep +:+ join sep (b :: l)).
    by rewrite !append_assoc.
Qed.

(** the text of a path whose last component is [name]: a part that
    depends on the components before it, then [name] *)
Lemma Path_str_snoc root init :
  ∃ before, ∀ name', Path_str (MkPath root (init ++ [name'])) = before +:+ name'.
Proof.
  exists (root +:+ match init with [] => "" | _ => join "/" init +:+ "/" end).
  intros name'. unfold Path_str. simpl.
  assert (init ++ [name'] ≠ []) as Hne by (by destruct init).
  rewrite append_assoc, <- join_snoc.
  destruct root; [|done]. by destruct (init ++ [name']).
Qed.

Section output_names.
Context `{PyText}.

(** X19: two values of a sweep share their output file exactly when
    Python writes them with the same text: values with different texts
    never overwrite each other's output. *)
Theorem output_paths_differ_with_texts output_base section param v1 v2 :
  no_slash section → no_slash param →
  no_slash (py_str v1) → no_slash (py_str v2) →
  Path_str (output_path_of output_base section param v1)
  = Path_str (output_path_of output_base section param v2)
  ↔ py_str v1 = py_str v2.
Proof.
  intros Hs Hp H1 H2. split.
  - rewrite !output_path_parts by done.
    destruct (Path_str_snoc (path_root (Path_of_string output_base))
                (removelast (path_parts (Path_of_string output_base))))
      as [before Hstr].
    rewrite !Hstr. unfold output_name. intros Heq.
    repeat apply String.app_inj in Heq.
    by apply append_cancel_r in Heq.
  - intros Heq. unfold output_path_of, output_name. by rewrite Heq.
Qed.

End output_names.

Lemma output_paths_differ_with_texts_witness :
  no_slash "daq" ∧ no_slash "snr" ∧
  Path_str (@output_path_of Demo.text "out/run.slc" "daq" "snr" (PInt 5))
  ≠ Path_str (@output_path_of Demo.text "out/run.slc" "daq" "snr" (PFloat (float_of_Z 5))).
Proof.
  split; [reflexivity|]. split; [reflexivity|].
  intros Heq.
  apply (@output_paths_differ_with_texts Demo.text "out/run.slc" "daq" "snr"
           (PInt 5) (PFloat (float_of_Z 5)) eq_refl eq_refl eq_refl eq_refl) in Heq.
  vm_compute in Heq. discriminate Heq.
Defined.

(** ** The extension of the output file *)

Lemma occurs_rfind_None c s k : occurs c s = false → rfind c s k = None.
Proof.
  revert k. induction s as [|a s IH]; intros k; simpl; [done|].
  intros Hs. apply orb_false_iff in Hs as [Ha Hs]. by rewrite (IH _ Hs), Ha.
Qed.

Lemma rfind_None_occurs c s k : rfind c s k = None → occurs c s = false.
Proof.
  revert k. induction s as [|a s IH]; intros k; simpl; [done|].
  destruct (rfind c s (S k)) eqn:Hr; [done|].
  destruct (Ascii.eqb a c); [done|]. intros _. simpl. by eapply IH.
Qed.

(** the last occurrence: what [rfind] finds splits the string *)
Lemma rfind_Some c s k j :
  rfind c s k = Some j →
  ∃ pre tail, s = pre +:+ String c tail ∧ occurs c tail = false ∧
              j = k + String.length pre.
Proof.
  revert k. induction s as [|a s IH]; intros k; simpl; [done|].
  destruct (rfind c s (S k)) as [j'|] eqn:Hr.
  - intros [= <-]. destruct (IH _ Hr) as (pre & tail & -> & Ht & ->).
    exists (String a pre), tail. rewrite append_cons. simpl.
    split; [done|]. split; [done|lia].
  - destruct (Ascii.eqb_spec a c) as [->|]; [|done]. intros [= <-].
    exists "", s. rewrite append_nil. simpl.
    split; [done|]. split; [by eapply rfind_None_occurs|lia].
Qed.

Lemma rfind_last c pre tail k :
  occurs c tail = false →
  rfind c (pre +:+ String c tail) k = Some (k + String.length pre).
Proof.
  intros Ht. revert k. induction pre as [|a pre IH]; intros k.
  - rewrite append_nil. simpl.
    rewrite (occurs_rfind_None _ _ _ Ht), Ascii.eqb_refl. f_equal. lia.
  - rewrite append_cons. simpl. rewrite IH. f_equal. lia.
Qed.

Lemma substring_app_l a b : String.substring 0 (String.length a) (a +:+ b) = a.
Proof.
  induction a as [|x a IH].
  - rewrite append_nil. simpl. by destruct b.
  - rewrite append_cons. simpl. by rewrite IH.
Qed.

Lemma substring_app_r a b :
  String.substring (String.length a) (String.length b) (a +:+ b) = b.
Proof.
  induction a as [|x a IH].
  - rewrite append_nil. simpl. apply substring_all.
  - rewrite append_cons. simpl. apply IH.
Qed.

(** a name with a suffix is a non-empty stem, a dot and a non-empty tail
    without a dot *)
Lemma suffix_index_Some name i :
  suffix_index name = Some i →
  ∃ pre tail, name = pre +:+ String "." tail ∧ occurs "." tail = false ∧
              pre ≠ "" ∧ tail ≠ "" ∧ i = String.length pre.
Proof.
  unfold suffix_index. destruct (rfind "." name 0) as [j|] eqn:Hr; [|done].
  destruct (_ && _) eqn:Hb; [|done]. intros [= <-].
  apply andb_true_iff in Hb as [H0 H1].
  apply Nat.ltb_lt in H0, H1.
  destruct (rfind_Some _ _ _ _ Hr) as (pre & tail & -> & Ht & ->).
  exists pre, tail. rewrite length_append in H1. simpl in H0, H1.
  split; [done|]. split; [done|].
  split; [intros ->; simpl in H0; lia|]. split; [|done].
  intros ->. simpl in H1. lia.
Qed.

Lemma suffix_index_dotted pre tail :
  occurs "." tail = false → pre ≠ "" → tail ≠ "" →
  suffix_index (pre +:+ String "." tail) = Some (String.length pre).
Proof.
  intros Ht Hp Hn. unfold suffix_index.
  rewrite (rfind_last _ _ _ _ Ht). simpl.
  rewrite length_append. simpl.
  assert (0 < String.length pre) by (destruct pre; [done|simpl; lia]).
  assert (0 < String.length tail) by (destruct tail; [done|simpl; lia]).
  replace (0 <? String.length pre) with true by (symmetry; by apply Nat.ltb_lt).
  replace (String.length pre <? String.length pre + S (String.length tail) - 1)
    with true by (symmetry; apply Nat.ltb_lt; lia).
  done.
Qed.

Section extension.
Context `{PyText}.

(** X20: when the output base has an extension and neither the section,
    the parameter nor the text of the value holds a '/', the output file
    of the value has the same extension, and its stem is the stem of the
    output base followed by _{section}_{parameter}_{value}: the dots in
    the text of a float value do not move the extension. *)
Theorem output_keeps_extension output_base section param value :
  no_slash section → no_slash param → no_slash (py_str value) →
  Path_suffix (Path_of_string output_base) ≠ "" →
  let base := Path_of_string output_base in
  let out := output_path_of output_base section param value in
  Path_suffix out = Path_suffix base ∧
  Path_stem out = Path_stem base +:+ "_" +:+ section +:+ "_" +:+ param +:+ "_"
                    +:+ py_str value.
Proof.
  intros Hs Hp Hv Hext base out.
  assert (Path_name out
          = output_name (Path_stem base) section param value (Path_suffix base))
    as Hname.
  { unfold out. rewrite output_path_parts by done. unfold Path_name. simpl.
    by rewrite last_last. }
  unfold Path_suffix, Path_stem in *. fold base in Hext. rewrite Hname.
  destruct (suffix_index (Path_name base)) as [i|] eqn:Hi; [|done].
  destruct (suffix_index_Some _ _ Hi) as (pre & tail & Hbase & Ht & Hpre & Htail & ->).
  rewrite Hbase.
  assert (String.length (pre +:+ String "." tail) - String.length pre
          = String.length (String "." tail)) as Hlen
    by (rewrite length_append; lia).
  rewrite Hlen, substring_app_l, substring_app_r.
  set (ins := "_" +:+ section +:+ "_" +:+ param +:+ "_" +:+ py_str value).
  assert (output_name pre section param value (String "." tail)
          = (pre +:+ ins) +:+ String "." tail) as ->.
  { unfold output_name, ins. by rewrite <- !append_assoc. }
  assert (pre +:+ ins ≠ "") as Hne by (by destruct pre).
  rewrite (suffix_index_dotted _ _ Ht Hne Htail).
  assert (String.length ((pre +:+ ins) +:+ String "." tail)
          - String.length (pre +:+ ins) = String.length (String "." tail)) as Hlen'
    by (rewrite (length_append (pre +:+ ins)); lia).
  by rewrite Hlen', substring_app_l, substring_app_r.
Qed.

End extension.

Lemma output_keeps_extension_witness :
  Path_suffix (Path_of_string "out/run.tar.slc") ≠ "" ∧
  Path_suffix (@output_path_of Demo.text "out/run.tar.slc" "daq" "snr"
                 (PFloat (float_of_Z 5))) = ".slc".
Proof.
  assert (Path_suffix (Path_of_string "out/run.tar.slc") ≠ "") as Hext
    by (vm_compute; discriminate).
  split; [exact Hext|].
  exact (proj1 (@output_keeps_extension Demo.text "out/run.tar.slc" "daq" "snr"
                  (PFloat (float_of_Z 5)) eq_refl eq_refl eq_refl Hext)).
Defined.

(** A '/' in the text of the value, as the path of a noise spectrum has
    it, ends the name early: what follows the last '/' and the extension
    of the output base make up the name of the output file. *)
Lemma slash_value_moves_the_stem :
  let out v := @output_path_of Demo.text "out/run.slc" "daq" "noise_spectrum" (PStr v) in
  Path_str (out "spectra/white.dat") = "out/run_daq_noise_spectrum_spectra/white.dat.slc" ∧
  Path_stem (out "spectra/white.dat") = "white.dat" ∧
  Path_name (out "spectra/") = ".slc" ∧ Path_suffix (out "spectra/") = "".
Proof. vm_compute. by repeat split. Qed.

(** Without an extension in the output base, the text of a float value
    supplies one: what follows its dot. *)
Lemma float_text_becomes_extension :
  let out := @output_path_of Demo.text "out/run" "daq" "snr" (PFloat (float_of_Z 5)) in
  Path_str out = "out/run_daq_snr_5.0" ∧ Path_suffix out = ".0" ∧
  Path_stem out = "run_daq_snr_5".
Proof. vm_compute. by repeat split. Qed.

(** ** The photoelectrons stored in [out] *)

Section stored_pe.
Context `{DsTypes} `{!DsElec}.

Global Instance same_pe_preorder : PreOrder same_pe.
Proof.
  split; [by intros s|]. intros s1 s2 s3 H12 H23. unfold same_pe in *. congruence.
Qed.

Lemma gate_body_same_pe cfg i pe' tg : preserves same_pe (gate_body cfg i pe' tg).
Proof.
  intros st r st'. destruct tg as [t g]. unfold gate_body, try_sum_zles, same_pe.
  munfold.
  destruct (create_veto_waveforms _ _ _ _) as [wfs|e]; simpl; [|by intros [= <- <-]].
  destruct (find_zle_intervals _ _ _) as [z|e]; simpl; [|by intros [= <- <-]].
  destruct (sum_zles _ _ _ _ _) as [s|e]; simpl.
  - destruct (find_hits _ _ _ _) as [h|e]; simpl; [|by intros [= <- <-]].
    destruct s as [s|]; simpl; [|by intros [= <- <-]].
    destruct (downsample_summed_wfs _ _) as [tb|e]; simpl; by intros [= <- <-].
  - destruct (zle_too_short e); simpl; by intros [= <- <-].
Qed.

Lemma outside_gates_same_pe cfg i pe' ts gs :
  preserves same_pe (outside_gates cfg i pe' ts gs).
Proof.
  intros st r st'. unfold outside_gates, same_pe. munfold.
  destruct (get_pes_outside_gates _ _ _ _) as [pes|e]; simpl; [|by intros [= <- <-]].
  destruct (find_effective_zles_hits _ _) as [zh|e]; simpl; by intros [= <- <-].
Qed.

Lemma finish_same_pe cfg i : preserves same_pe (finish cfg i).
Proof.
  intros st r st'. unfold finish, same_pe. munfold. simpl.
  destruct (_ && _); simpl; [|by intros [= <- <-]].
  destruct (get_zle_gain_veto cfg); simpl; [|by intros [= <- <-]].
  destruct (get_hit_gain_veto cfg); simpl; by intros [= <- <-].
Qed.

(** X21: whenever process_event returns, with true or with false, the key
    'pe' of [out] holds the photoelectrons of the event after noise and
    jitter: no gate, no failure and no step of the calibration replaces
    them. *)
Theorem process_event_stores_perturbed_pe cfg i ev st b st' :
  process_event cfg i ev st = (Ok b, st') →
  ∃ pe' tg, before_gates cfg ev = Ok (pe', tg) ∧ out_pe (ps_out st') = Some pe'.
Proof.
  unfold process_event, mbind at 1.
  destruct (before_gates cfg ev) as [[pe' tg]|e0] eqn:Hb.
  - destruct (collect_steps cfg i ev st pe' tg Hb) as (s0 & Hout & _ & _ & _ & ->).
    destruct ((mfor _ _ >>> outside_gates _ _ _ _ _) s0) as [[[]|e] s1] eqn:Hp;
      [|done].
    intros Hf. exists pe', tg. split; [done|].
    apply finish_same_pe in Hf. rewrite Hf.
    assert (same_pe s0 s1) as ->.
    { revert Hp. apply (preserves_bind same_pe).
      - apply preserves_for; [apply _|]. intros tg0. apply gate_body_same_pe.
      - intros _. apply outside_gates_same_pe. }
    by rewrite Hout.
  - destruct (collect_result (λ _ _, True) cfg i ev st) as (s1 & Hc); [done..|].
    rewrite Hb in Hc. destruct Hc as [-> _]. done.
Qed.

End stored_pe.

Lemma process_event_stores_perturbed_pe_witness :
  let run := Demo.process_at Demo.elec_ok Demo.ev3 in
  run = (Ok true, snd run) ∧ out_pe (ps_out (snd run)) = Some Demo.pes3.
Proof.
  assert (Demo.process_at Demo.elec_ok Demo.ev3
          = (Ok true, snd (Demo.process_at Demo.elec_ok Demo.ev3))) as Hrun
    by (vm_compute; reflexivity).
  split; [exact Hrun|].
  destruct (@process_event_stores_perturbed_pe Demo.types Demo.elec_ok ∅ 0 Demo.ev3
              (Demo.start []) true _ Hrun) as (pe' & tg & Hb & Hpe).
  rewrite Hpe. f_equal.
  assert (@before_gates Demo.types Demo.elec_ok ∅ Demo.ev3
          = Ok (Demo.pes3, ([Demo.fl 0], [Demo.fl 5]))) as Hb' by reflexivity.
  rewrite Hb' in Hb. by injection Hb as <- _.
Defined.
